(** * Raster tile priority queue (cc/resources/raster_tile_priority_queue.cc)

    A shallow embedding of [RasterOrderComparator], [HigherPriorityTree],
    [RasterTilePriorityQueue] and its nested [PairedTilingSetQueue], with the
    properties the specification states about them.

    Conventions of the embedding:
    - a [TilingSetRasterQueue] (the external tile iterator) is the finite
      list of tiles it still has to yield, front first;
    - a pointer that may be null is an [option];
    - a function returns [None] where the C++ dereferences a null pointer,
      reads the top of an empty iterator, or fails a [DCHECK] (the debug
      build's behaviour, which is the stricter one: whenever the model
      returns [Some], the release build takes the same path);
    - [distance_to_visible] is an IEEE-754 value ([spec_float]), compared
      with IEEE [<] ([SFltb]), NaN included. *)

From Stdlib Require Import ZArith Floats.SpecFloat Strings.String.
From stdpp Require Import base decidable option countable list gmap.

Open Scope nat_scope.

(** ** Enumerations *)

(** Modelled from the spec: the enumerations of section 3 ([TreePriority],
    [WhichTree], [PriorityBin], [Resolution]); their declarations
    (tile_priority.h) are not among the sources, which use the enumerators
    by name. *)
Inductive TreePriority :=
| SAME_PRIORITY_FOR_BOTH_TREES
| SMOOTHNESS_TAKES_PRIORITY
| NEW_CONTENT_TAKES_PRIORITY.

Inductive WhichTree := ACTIVE_TREE | PENDING_TREE.

Inductive PriorityBin := NOW | SOON | EVENTUALLY.

Inductive TileResolution :=
| LOW_RESOLUTION
| HIGH_RESOLUTION
| NON_IDEAL_RESOLUTION.

#[global] Instance TreePriority_eq_dec : EqDecision TreePriority.
Proof. solve_decision. Defined.
#[global] Instance WhichTree_eq_dec : EqDecision WhichTree.
Proof. solve_decision. Defined.
#[global] Instance PriorityBin_eq_dec : EqDecision PriorityBin.
Proof. solve_decision. Defined.
#[global] Instance TileResolution_eq_dec : EqDecision TileResolution.
Proof. solve_decision. Defined.
#[global] Instance spec_float_eq_dec : EqDecision spec_float.
Proof. solve_decision. Defined.

(** ** TilePriority *)

(** Modelled from the spec: the record [TilePriority] of section 3
    (tile_priority.h is not among the sources); the source reads the
    fields [priority_bin] and [resolution]. *)
Record TilePriority := mkTilePriority {
  resolution : TileResolution;
  priority_bin : PriorityBin;
  distance_to_visible : spec_float
}.

#[global] Instance TilePriority_eq_dec : EqDecision TilePriority.
Proof. solve_decision. Defined.

(** Modelled from the spec: the order of [PriorityBin] (tile_priority.h is
    not among the sources). Section 3: "enum ordered NOW > SOON >
    EVENTUALLY"; [bin_higher x y] is [x > y] in that order. *)
Definition bin_higher (x y : PriorityBin) : bool :=
  match x, y with
  | NOW, SOON | NOW, EVENTUALLY | SOON, EVENTUALLY => true
  | _, _ => false
  end.

(** Modelled from the spec: [TilePriority::IsHigherPriorityThan]
    (tile_priority.h is not among the sources). Section 4.2:
    "x.bin > y.bin, or bins equal and x.distance_to_visible <
    y.distance_to_visible". *)
Definition IsHigherPriorityThan (x y : TilePriority) : bool :=
  bin_higher (priority_bin x) (priority_bin y)
  || (bool_decide (priority_bin x = priority_bin y)
      && SFltb (distance_to_visible x) (distance_to_visible y)).

(** ** Tile *)

(** Modelled from the spec: the [Tile] of section 3 (tile.h is not among
    the sources): an identity, here [tile_id] for the tile's address, one
    priority record per tree, read with [priority(WhichTree)], and
    [is_shared()]. *)
Record Tile := mkTile {
  tile_id : N;
  priority_active : TilePriority;
  priority_pending : TilePriority;
  is_shared : bool
}.

#[global] Instance Tile_eq_dec : EqDecision Tile.
Proof. solve_decision. Defined.

Definition priority (t : Tile) (tree : WhichTree) : TilePriority :=
  match tree with
  | ACTIVE_TREE => priority_active t
  | PENDING_TREE => priority_pending t
  end.

(** Modelled from the spec: [Tile::priority_for_tree_priority] (tile.h is
    not among the sources). Section 6: "selects priority(ACTIVE) for
    SMOOTHNESS_TAKES_PRIORITY and SAME_PRIORITY_FOR_BOTH_TREES,
    priority(PENDING) for NEW_CONTENT_TAKES_PRIORITY". *)
Definition priority_for_tree_priority (t : Tile) (tree_priority : TreePriority)
  : TilePriority :=
  match tree_priority with
  | SMOOTHNESS_TAKES_PRIORITY => priority t ACTIVE_TREE
  | NEW_CONTENT_TAKES_PRIORITY => priority t PENDING_TREE
  | SAME_PRIORITY_FOR_BOTH_TREES => priority t ACTIVE_TREE
  end.

(** Tiles are kept in a [std::set<const Tile*>]; a [gset Tile] needs them
    countable. *)
Definition spec_float_to_sum (f : spec_float)
  : bool + (bool + (unit + bool * positive * Z)) :=
  match f with
  | S754_zero s => inl s
  | S754_infinity s => inr (inl s)
  | S754_nan => inr (inr (inl tt))
  | S754_finite s m e => inr (inr (inr (s, m, e)))
  end.

Definition spec_float_of_sum (x : bool + (bool + (unit + bool * positive * Z)))
  : spec_float :=
  match x with
  | inl s => S754_zero s
  | inr (inl s) => S754_infinity s
  | inr (inr (inl _)) => S754_nan
  | inr (inr (inr (s, m, e))) => S754_finite s m e
  end.

#[global] Program Instance spec_float_countable : Countable spec_float :=
  inj_countable' spec_float_to_sum spec_float_of_sum _.
Next Obligation. by intros []. Qed.

Definition bin_to_nat (b : PriorityBin) : nat :=
  match b with NOW => 0 | SOON => 1 | EVENTUALLY => 2 end.
Definition bin_of_nat (n : nat) : PriorityBin :=
  match n with 0 => NOW | 1 => SOON | _ => EVENTUALLY end.
Definition resolution_to_nat (r : TileResolution) : nat :=
  match r with
  | LOW_RESOLUTION => 0 | HIGH_RESOLUTION => 1 | NON_IDEAL_RESOLUTION => 2
  end.
Definition resolution_of_nat (n : nat) : TileResolution :=
  match n with
  | 0 => LOW_RESOLUTION | 1 => HIGH_RESOLUTION | _ => NON_IDEAL_RESOLUTION
  end.

#[global] Program Instance PriorityBin_countable : Countable PriorityBin :=
  inj_countable' bin_to_nat bin_of_nat _.
Next Obligation. by intros []. Qed.

#[global] Program Instance TileResolution_countable : Countable TileResolution :=
  inj_countable' resolution_to_nat resolution_of_nat _.
Next Obligation. by intros []. Qed.

#[global] Program Instance TilePriority_countable : Countable TilePriority :=
  inj_countable'
    (λ p, (resolution p, priority_bin p, distance_to_visible p))
    (λ '(r, b, d), mkTilePriority r b d) _.
Next Obligation. by intros []. Qed.

#[global] Program Instance Tile_countable : Countable Tile :=
  inj_countable'
    (λ t, (tile_id t, priority_active t, priority_pending t, is_shared t))
    (λ '(i, a, p, s), mkTile i a p s) _.
Next Obligation. by intros []. Qed.

(** ** TilingSetRasterQueue (external iterator) *)

(** Modelled from the spec: the iterator contract of section 6
    ([IsEmpty], [Top] with precondition non-empty, [Pop] that advances);
    tiling_set_raster_queue.h is not among the sources. *)
Module TilingSetRasterQueue.

Definition t := list Tile.

Definition IsEmpty (q : t) : bool :=
  match q with [] => true | _ :: _ => false end.

Definition Top (q : t) : option Tile := head q.

Definition Pop (q : t) : t := tail q.

End TilingSetRasterQueue.

(** Modelled from the spec: a layer offers
    [CreateRasterQueue(prioritize_low_res)] (section 6);
    picture_layer_impl.h is not among the sources. *)
Record PictureLayerImpl := mkLayer {
  CreateRasterQueue : bool → TilingSetRasterQueue.t
}.

(** Modelled from the spec: [PictureLayerImpl::Pair] (section 6: "for each
    pair, optional active layer and optional pending layer"); the source
    tests and dereferences its members [active] and [pending]. *)
Record Pair := mkPair {
  active : option PictureLayerImpl;
  pending : option PictureLayerImpl
}.

(** [p->Top()] through a pointer that may be null. *)
Definition Top_ptr (p : option TilingSetRasterQueue.t) : option Tile :=
  p ≫= TilingSetRasterQueue.Top.

(** ** HigherPriorityTree *)

Definition HigherPriorityTree (tree_priority : TreePriority)
    (active_queue pending_queue : option TilingSetRasterQueue.t)
    (shared_tile : option Tile) : option WhichTree :=
  match tree_priority with
  | SMOOTHNESS_TAKES_PRIORITY =>
      active_tile ←
        match shared_tile with Some s => Some s | None => Top_ptr active_queue end;
      pending_tile ←
        match shared_tile with Some s => Some s | None => Top_ptr pending_queue end;
      let active_priority := priority active_tile ACTIVE_TREE in
      let pending_priority := priority pending_tile PENDING_TREE in
      if bool_decide (priority_bin active_priority = EVENTUALLY)
         && bool_decide (priority_bin pending_priority = NOW)
      then Some PENDING_TREE
      else Some ACTIVE_TREE
  | NEW_CONTENT_TAKES_PRIORITY => Some PENDING_TREE
  | SAME_PRIORITY_FOR_BOTH_TREES =>
      active_tile ←
        match shared_tile with Some s => Some s | None => Top_ptr active_queue end;
      pending_tile ←
        match shared_tile with Some s => Some s | None => Top_ptr pending_queue end;
      let active_priority := priority active_tile ACTIVE_TREE in
      let pending_priority := priority pending_tile PENDING_TREE in
      if IsHigherPriorityThan active_priority pending_priority
      then Some ACTIVE_TREE
      else Some PENDING_TREE
  end.

(** ** PairedTilingSetQueue *)

Module PairedTilingSetQueue.

(** The members the source uses (the class is declared in
    raster_tile_priority_queue.h, not among the sources): two owned
    iterators that may be null, [has_both_layers], and the set of tiles
    already returned that the debug checks maintain. *)
Record t := mk {
  active_queue : option TilingSetRasterQueue.t;
  pending_queue : option TilingSetRasterQueue.t;
  has_both_layers : bool;
  returned_tiles_for_debug : gset Tile
}.

(** [!queue || queue->IsEmpty()] *)
Definition no_tiles (queue : option TilingSetRasterQueue.t) : bool :=
  match queue with
  | None => true
  | Some q => TilingSetRasterQueue.IsEmpty q
  end.

Definition IsEmpty (self : t) : bool :=
  no_tiles (active_queue self) && no_tiles (pending_queue self).

Definition NextTileIteratorTree (self : t) (tree_priority : TreePriority)
  : option WhichTree :=
  if IsEmpty self then None
  else if no_tiles (active_queue self) then Some PENDING_TREE
  else if no_tiles (pending_queue self) then Some ACTIVE_TREE
  else HigherPriorityTree tree_priority
         (active_queue self) (pending_queue self) None.

(** [next_tree == ACTIVE_TREE ? active_queue.get() : pending_queue.get()] *)
Definition queue_of (self : t) (tree : WhichTree)
  : option TilingSetRasterQueue.t :=
  match tree with
  | ACTIVE_TREE => active_queue self
  | PENDING_TREE => pending_queue self
  end.

(** [next_queue->Pop()] on the queue of [tree]. *)
Definition pop_queue (self : t) (tree : WhichTree) : t :=
  match tree with
  | ACTIVE_TREE =>
      mk (TilingSetRasterQueue.Pop <$> active_queue self) (pending_queue self)
         (has_both_layers self) (returned_tiles_for_debug self)
  | PENDING_TREE =>
      mk (active_queue self) (TilingSetRasterQueue.Pop <$> pending_queue self)
         (has_both_layers self) (returned_tiles_for_debug self)
  end.

Definition Top (self : t) (tree_priority : TreePriority) : option Tile :=
  if IsEmpty self then None
  else
    next_tree ← NextTileIteratorTree self tree_priority;
    tile ← Top_ptr (queue_of self next_tree);
    if bool_decide (tile ∈ returned_tiles_for_debug self) then None
    else Some tile.

(** Tiles left in both iterators; it bounds the iterations of the loop of
    [SkipTilesReturnedByTwin]. *)
Definition tiles_left (self : t) : nat :=
  length (default [] (active_queue self))
  + length (default [] (pending_queue self)).

(** The [while (!IsEmpty())] loop of [SkipTilesReturnedByTwin]; [None] when
    [fuel] iterations did not reach the loop's exit. *)
Fixpoint skip_loop (fuel : nat) (self : t) (tree_priority : TreePriority)
  : option t :=
  if IsEmpty self then Some self
  else
    match fuel with
    | 0 => None
    | S fuel' =>
        next_tree ← NextTileIteratorTree self tree_priority;
        tile ← Top_ptr (queue_of self next_tree);
        if negb (is_shared tile) then Some self
        else
          owner ← HigherPriorityTree tree_priority None None (Some tile);
          if bool_decide (next_tree = owner) then Some self
          else skip_loop fuel' (pop_queue self next_tree) tree_priority
    end.

Definition SkipTilesReturnedByTwin (self : t) (tree_priority : TreePriority)
  : option t :=
  skip_loop (tiles_left self) self tree_priority.

Definition Pop (self : t) (tree_priority : TreePriority) : option t :=
  if IsEmpty self then None
  else
    next_tree ← NextTileIteratorTree self tree_priority;
    tile ← Top_ptr (queue_of self next_tree);
    if bool_decide (tile ∈ returned_tiles_for_debug self) then None
    else
      let inserted :=
        mk (active_queue self) (pending_queue self) (has_both_layers self)
           ({[tile]} ∪ returned_tiles_for_debug self) in
      let popped := pop_queue inserted next_tree in
      skipped ←
        (if has_both_layers popped
         then SkipTilesReturnedByTwin popped tree_priority
         else Some popped);
      if IsEmpty skipped then Some skipped
      else _ ← Top skipped tree_priority; Some skipped.

(** The constructor from a layer pair. *)
Definition new (layer_pair : Pair) (tree_priority : TreePriority) : option t :=
  let prioritize_low_res :=
    bool_decide (tree_priority = SMOOTHNESS_TAKES_PRIORITY) in
  let self :=
    mk ((λ l, CreateRasterQueue l prioritize_low_res) <$> active layer_pair)
       ((λ l, CreateRasterQueue l prioritize_low_res) <$> pending layer_pair)
       (bool_decide (is_Some (active layer_pair))
        && bool_decide (is_Some (pending layer_pair)))
       ∅ in
  if has_both_layers self then SkipTilesReturnedByTwin self tree_priority
  else Some self.

(** The entries [StateAsValue] writes into the traced value. *)
Inductive TracedEntry :=
| SetBoolean (name : string) (value : bool)
| SetInteger (name : string) (value : Z).

(** Modelled from the spec: the integer values of the [PriorityBin]
    enumerators (tile_priority.h is not among the sources), numbered in the
    order section 3 lists them. *)
Definition PriorityBin_value (b : PriorityBin) : Z :=
  match b with NOW => 0 | SOON => 1 | EVENTUALLY => 2 end%Z.

(** A traced value: the dictionaries in the order they were written, each
    with its entries; the first component of a pair of bins is the
    [active_priority_bin], the second the [pending_priority_bin]. *)
Definition StateAsValue (self : t) : list (string * list TracedEntry) :=
  let active_queue_has_tile := negb (no_tiles (active_queue self)) in
  let active_bins :=
    if active_queue_has_tile
    then match Top_ptr (active_queue self) with
         | Some top =>
             (priority_bin (priority top ACTIVE_TREE),
              priority_bin (priority top PENDING_TREE))
         | None => (EVENTUALLY, EVENTUALLY)
         end
    else (EVENTUALLY, EVENTUALLY) in
  let pending_queue_has_tile := negb (no_tiles (pending_queue self)) in
  let pending_bins :=
    if pending_queue_has_tile
    then match Top_ptr (pending_queue self) with
         | Some top =>
             (priority_bin (priority top ACTIVE_TREE),
              priority_bin (priority top PENDING_TREE))
         | None => (EVENTUALLY, EVENTUALLY)
         end
    else (EVENTUALLY, EVENTUALLY) in
  [ ("active_queue"%string,
     [ SetBoolean "has_tile" active_queue_has_tile;
       SetInteger "active_priority_bin" (PriorityBin_value active_bins.1);
       SetInteger "pending_priority_bin" (PriorityBin_value active_bins.2) ]);
    ("pending_queue"%string,
     [ SetBoolean "has_tile" active_queue_has_tile;
       SetInteger "active_priority_bin" (PriorityBin_value pending_bins.1);
       SetInteger "pending_priority_bin" (PriorityBin_value pending_bins.2) ]) ].

End PairedTilingSetQueue.

(** ** RasterOrderComparator *)

(** [x < y] on C++ [bool]s. *)
Definition bool_lt (x y : bool) : bool := negb x && y.

(** [RasterOrderComparator(tree_priority_)(a, b)]: true iff [a] is of
    strictly lower priority than [b]. *)
Definition RasterOrderComparator (tree_priority_ : TreePriority)
    (a b : PairedTilingSetQueue.t) : option bool :=
  if PairedTilingSetQueue.IsEmpty a || PairedTilingSetQueue.IsEmpty b
  then Some (bool_lt (PairedTilingSetQueue.IsEmpty b)
                     (PairedTilingSetQueue.IsEmpty a))
  else
    a_tree ← PairedTilingSetQueue.NextTileIteratorTree a tree_priority_;
    let a_queue := PairedTilingSetQueue.queue_of a a_tree in
    b_tree ← PairedTilingSetQueue.NextTileIteratorTree b tree_priority_;
    let b_queue := PairedTilingSetQueue.queue_of b b_tree in
    a_tile ← Top_ptr a_queue;
    b_tile ← Top_ptr b_queue;
    let a_priority := priority_for_tree_priority a_tile tree_priority_ in
    let b_priority := priority_for_tree_priority b_tile tree_priority_ in
    let prioritize_low_res :=
      bool_decide (tree_priority_ = SMOOTHNESS_TAKES_PRIORITY) in
    let pending_now_return : option bool :=
      if prioritize_low_res
         && bool_decide (priority_bin a_priority = EVENTUALLY)
         && bool_decide (priority_bin b_priority = EVENTUALLY)
      then
        let a_is_pending_now :=
          bool_decide (priority_bin (priority a_tile PENDING_TREE) = NOW) in
        let b_is_pending_now :=
          bool_decide (priority_bin (priority b_tile PENDING_TREE) = NOW) in
        if a_is_pending_now || b_is_pending_now
        then Some (bool_lt a_is_pending_now b_is_pending_now)
        else None
      else None in
    match pending_now_return with
    | Some r => Some r
    | None =>
        if bool_decide (priority_bin b_priority = priority_bin a_priority)
           && negb (bool_decide (resolution b_priority = resolution a_priority))
        then
          if bool_decide (resolution a_priority = NON_IDEAL_RESOLUTION)
          then Some true
          else if bool_decide (resolution b_priority = NON_IDEAL_RESOLUTION)
          then Some false
          else if prioritize_low_res
          then Some (bool_decide (resolution b_priority = LOW_RESOLUTION))
          else Some (bool_decide (resolution b_priority = HIGH_RESOLUTION))
        else Some (IsHigherPriorityThan b_priority a_priority)
    end.

(** The comparator as the heap algorithms use it. [RasterOrderComparator]
    never returns [None] (see [RasterOrderComparator_total]). *)
Definition lower_priority (tree_priority_ : TreePriority)
    (a b : PairedTilingSetQueue.t) : bool :=
  default false (RasterOrderComparator tree_priority_ a b).

(** ** Heap algorithms of the pair vector *)

(** Modelled from the spec: [ScopedPtrVector::make_heap], [pop_heap] and
    [push_heap] (cc/base/scoped_ptr_vector.h, which forwards to the C++
    standard library, is not among the sources). Section 4.4: Build
    "heapif[ies] the sequence"; Pop "remove[s] the root from the heap
    (sift-down into a trailing position) ..., then re-insert[s] by sifting
    up". The vector is a list indexed from 0; the children of index [p]
    are [2p+1] and [2p+2]. *)
Section heap_algorithms.
Context {A : Type} (comp : A → A → bool).

(** [comp (v[i], v[j])], false when an index is out of range. *)
Definition comp_at (v : list A) (i j : nat) : bool :=
  match v !! i, v !! j with
  | Some x, Some y => comp x y
  | _, _ => false
  end.

Definition swap (v : list A) (i j : nat) : list A :=
  match v !! i, v !! j with
  | Some x, Some y => <[i := y]> (<[j := x]> v)
  | _, _ => v
  end.

Definition parent (i : nat) : nat := (i - 1) / 2.

(** Move [v[i]] up while its parent compares lower. *)
Fixpoint sift_up (fuel : nat) (v : list A) (i : nat) : list A :=
  match fuel with
  | 0 => v
  | S fuel' =>
      if bool_decide (i = 0) then v
      else if comp_at v (parent i) i
      then sift_up fuel' (swap v (parent i) i) (parent i)
      else v
  end.

(** Move [v[i]] down while a child compares higher; the larger child goes
    up. *)
Fixpoint sift_down (fuel : nat) (v : list A) (i : nat) : list A :=
  match fuel with
  | 0 => v
  | S fuel' =>
      let l := 2 * i + 1 in
      let r := 2 * i + 2 in
      let largest := if comp_at v i l then l else i in
      let largest := if comp_at v largest r then r else largest in
      if bool_decide (largest = i) then v
      else sift_down fuel' (swap v i largest) largest
  end.

(** [std::push_heap]: the last element is sifted up into the heap formed
    by the elements before it. *)
Definition push_heap (v : list A) : list A :=
  sift_up (length v) v (length v - 1).

(** [std::pop_heap]: the root is exchanged with the last element, which is
    then sifted down within all positions but the last. *)
Definition pop_heap (v : list A) : list A :=
  let n := length v in
  let w := swap v 0 (n - 1) in
  sift_down n (take (n - 1) w) 0 ++ drop (n - 1) w.

(** Sift down the positions [k-1], ..., [0] in this order. *)
Fixpoint heapify (k : nat) (v : list A) : list A :=
  match k with
  | 0 => v
  | S k' => heapify k' (sift_down (length v) v k')
  end.

(** [std::make_heap] *)
Definition make_heap (v : list A) : list A := heapify (length v / 2) v.

(** [std::is_heap]: no parent compares lower than a child of it. *)
Definition is_heap (v : list A) : Prop :=
  ∀ p c, c = 2 * p + 1 ∨ c = 2 * p + 2 → comp_at v p c = false.

(** The heap order holds but between index [i] and its parent; the parent
    of [i] is in order with the children of [i]. The invariant of
    [sift_up]. *)
Definition heap_but_above (v : list A) (i : nat) : Prop :=
  (∀ p c, c = 2 * p + 1 ∨ c = 2 * p + 2 → c ≠ i → comp_at v p c = false)
  ∧ (∀ g c, i = 2 * g + 1 ∨ i = 2 * g + 2 →
            c = 2 * i + 1 ∨ c = 2 * i + 2 → comp_at v g c = false).

(** The heap order holds from index [lo] on: for the parents [p >= lo]. *)
Definition heap_from (lo : nat) (v : list A) : Prop :=
  ∀ p c, c = 2 * p + 1 ∨ c = 2 * p + 2 → lo ≤ p → comp_at v p c = false.

(** The heap order holds from [lo] on but between index [i] and its
    children; the parent of [i] is in order with the children of [i]. The
    invariant of [sift_down]. *)
Definition heap_but_below (lo : nat) (v : list A) (i : nat) : Prop :=
  (∀ p c, c = 2 * p + 1 ∨ c = 2 * p + 2 → lo ≤ p → p ≠ i →
          comp_at v p c = false)
  ∧ (∀ g c, i = 2 * g + 1 ∨ i = 2 * g + 2 → lo ≤ g →
            c = 2 * i + 1 ∨ c = 2 * i + 2 → comp_at v g c = false).

(** Exchanging indices [i] and [j]. *)
Definition swap_index (i j k : nat) : nat :=
  if decide (k = i) then j else if decide (k = j) then i else k.

End heap_algorithms.

(** ** RasterTilePriorityQueue *)

Module RasterTilePriorityQueue.

(** The members the source uses: the vector of owned pairs and the policy
    recorded by [Build]. *)
Record t := mk {
  paired_queues_ : list PairedTilingSetQueue.t;
  tree_priority_ : TreePriority
}.

(** The constructor leaves [tree_priority_] uninitialised; the value it
    happens to hold is an argument here. *)
Definition new (indeterminate : TreePriority) : t := mk [] indeterminate.

Definition Build (self : t) (paired_layers : list Pair)
    (tree_priority : TreePriority) : option t :=
  pushed ← mapM (λ it, PairedTilingSetQueue.new it tree_priority) paired_layers;
  Some (mk (make_heap (lower_priority tree_priority)
                      (paired_queues_ self ++ pushed))
           tree_priority).

Definition Reset (self : t) : t := mk [] (tree_priority_ self).

Definition IsEmpty (self : t) : bool :=
  match paired_queues_ self with
  | [] => true
  | front :: _ => PairedTilingSetQueue.IsEmpty front
  end.

Definition Top (self : t) : option Tile :=
  if IsEmpty self then None
  else
    front ← head (paired_queues_ self);
    PairedTilingSetQueue.Top front (tree_priority_ self).

Definition Pop (self : t) : option t :=
  if IsEmpty self then None
  else
    let popped :=
      pop_heap (lower_priority (tree_priority_ self)) (paired_queues_ self) in
    paired_queue ← last popped;
    paired_queue' ← PairedTilingSetQueue.Pop paired_queue (tree_priority_ self);
    Some (mk (push_heap (lower_priority (tree_priority_ self))
                        (<[length popped - 1 := paired_queue']> popped))
             (tree_priority_ self)).

End RasterTilePriorityQueue.

(** ** Notions the statements below are written with *)

(** The tile the comparator reads from a pair: the top of the iterator
    [NextTileIteratorTree] selects (lines 25-34 of the source), without the
    debug checks of [PairedTilingSetQueue::Top]. *)
Definition next_tile (q : PairedTilingSetQueue.t) (tree_priority : TreePriority)
  : option Tile :=
  next_tree ← PairedTilingSetQueue.NextTileIteratorTree q tree_priority;
  Top_ptr (PairedTilingSetQueue.queue_of q next_tree).

(** Steps 4 and 5 of section 4.2 on two policy priorities, in the spec's
    words: with equal bins and different resolutions a NON_IDEAL_RESOLUTION
    loses, otherwise LOW beats HIGH under SMOOTHNESS_TAKES_PRIORITY and
    HIGH beats LOW under the other policies; in every other case the
    fallback [pb.IsHigherPriorityThan(pa)]. *)
Definition resolution_then_fallback (tree_priority : TreePriority)
    (pa pb : TilePriority) : bool :=
  if bool_decide (priority_bin pa = priority_bin pb)
     && negb (bool_decide (resolution pa = resolution pb))
  then
    if bool_decide (resolution pa = NON_IDEAL_RESOLUTION) then true
    else if bool_decide (resolution pb = NON_IDEAL_RESOLUTION) then false
    else if bool_decide (tree_priority = SMOOTHNESS_TAKES_PRIORITY)
    then bool_decide (resolution pb = LOW_RESOLUTION)
    else bool_decide (resolution pb = HIGH_RESOLUTION)
  else IsHigherPriorityThan pb pa.

(** [priority(PENDING_TREE).priority_bin == TilePriority::NOW] *)
Definition is_pending_now (t : Tile) : bool :=
  bool_decide (priority_bin (priority t PENDING_TREE) = NOW).

(** The comparator on the two tiles it reads (lines 36-76 of the source). *)
Definition tile_lower (tree_priority : TreePriority) (ta tb : Tile) : bool :=
  let pa := priority_for_tree_priority ta tree_priority in
  let pb := priority_for_tree_priority tb tree_priority in
  if bool_decide (tree_priority = SMOOTHNESS_TAKES_PRIORITY)
     && bool_decide (priority_bin pa = EVENTUALLY)
     && bool_decide (priority_bin pb = EVENTUALLY)
     && (is_pending_now ta || is_pending_now tb)
  then bool_lt (is_pending_now ta) (is_pending_now tb)
  else resolution_then_fallback tree_priority pa pb.

(** The comparator on what it reads from each pair: [None] for an empty
    pair. *)
Definition key_lower (tree_priority : TreePriority) (ka kb : option Tile)
  : bool :=
  match ka, kb with
  | _, None => false
  | None, Some _ => true
  | Some ta, Some tb => tile_lower tree_priority ta tb
  end.

(** A distance that is a number. *)
Definition is_number (f : spec_float) : bool :=
  match f with S754_nan => false | _ => true end.

(** Both priority records of the tile carry a distance that is a number. *)
Definition numeric_tile (t : Tile) : Prop :=
  is_number (distance_to_visible (priority_active t)) = true
  ∧ is_number (distance_to_visible (priority_pending t)) = true.

(** Every tile left in the pair's iterators is numeric. *)
Definition numeric_pair (q : PairedTilingSetQueue.t) : Prop :=
  Forall numeric_tile (default [] (PairedTilingSetQueue.active_queue q))
  ∧ Forall numeric_tile (default [] (PairedTilingSetQueue.pending_queue q)).


(** ** Ranks: the comparator as a lexicographic order

    The comparator orders tiles by a class (the bin, with the pending-NOW
    tiles of the EVENTUALLY bin set apart under SMOOTHNESS_TAKES_PRIORITY),
    then by a rank of the resolution, then by the distance. Tiles of the
    set-apart class are all equivalent. *)

Definition pending_now_class (tree_priority : TreePriority) (t : Tile) : bool :=
  bool_decide (tree_priority = SMOOTHNESS_TAKES_PRIORITY)
  && bool_decide
       (priority_bin (priority_for_tree_priority t tree_priority) = EVENTUALLY)
  && is_pending_now t.

Definition class_rank (tree_priority : TreePriority) (t : Tile) : nat :=
  match priority_bin (priority_for_tree_priority t tree_priority) with
  | NOW => 3
  | SOON => 2
  | EVENTUALLY => if pending_now_class tree_priority t then 1 else 0
  end.

Definition resolution_rank (tree_priority : TreePriority) (t : Tile) : nat :=
  if pending_now_class tree_priority t then 0
  else
    match resolution (priority_for_tree_priority t tree_priority) with
    | NON_IDEAL_RESOLUTION => 0
    | LOW_RESOLUTION =>
        if bool_decide (tree_priority = SMOOTHNESS_TAKES_PRIORITY) then 2 else 1
    | HIGH_RESOLUTION =>
        if bool_decide (tree_priority = SMOOTHNESS_TAKES_PRIORITY) then 1 else 2
    end.

Definition distance_rank (tree_priority : TreePriority) (t : Tile) : spec_float :=
  if pending_now_class tree_priority t then S754_zero false
  else distance_to_visible (priority_for_tree_priority t tree_priority).

(** Lexicographic: lower class, then lower resolution rank, then greater
    distance. *)
Definition rank_lower (tree_priority : TreePriority) (ta tb : Tile) : bool :=
  (class_rank tree_priority ta <? class_rank tree_priority tb)
  || ((class_rank tree_priority ta =? class_rank tree_priority tb)
      && ((resolution_rank tree_priority ta <? resolution_rank tree_priority tb)
          || ((resolution_rank tree_priority ta
               =? resolution_rank tree_priority tb)
              && SFltb (distance_rank tree_priority tb)
                       (distance_rank tree_priority ta)))).

(** ** Concrete inputs used in examples *)

(** The floats 1.0, 2.0 and 3.0 in binary32 (24-bit mantissa). *)
Definition f1_0 : spec_float := S754_finite false 8388608 (-23).
Definition f2_0 : spec_float := S754_finite false 8388608 (-22).
Definition f3_0 : spec_float := S754_finite false 12582912 (-22).

(** A pair over one active-tree iterator holding the given tiles. *)
Definition active_only (tiles : list Tile) : PairedTilingSetQueue.t :=
  PairedTilingSetQueue.mk (Some tiles) None false ∅.

(** Two EVENTUALLY tiles of the active tree that the pending tree needs NOW,
    at distances 1.0 and 2.0. *)
Definition tile_near_pending_now : Tile :=
  mkTile 1 (mkTilePriority HIGH_RESOLUTION EVENTUALLY f1_0)
           (mkTilePriority HIGH_RESOLUTION NOW f1_0) false.
Definition tile_far_pending_now : Tile :=
  mkTile 2 (mkTilePriority HIGH_RESOLUTION EVENTUALLY f2_0)
           (mkTilePriority HIGH_RESOLUTION NOW f2_0) false.

(** Two EVENTUALLY tiles whose pending bin is SOON, at distances 1.0 and
    2.0. *)
Definition tile_near_eventually : Tile :=
  mkTile 3 (mkTilePriority HIGH_RESOLUTION EVENTUALLY f1_0)
           (mkTilePriority HIGH_RESOLUTION SOON f1_0) false.
Definition tile_far_eventually : Tile :=
  mkTile 4 (mkTilePriority HIGH_RESOLUTION EVENTUALLY f2_0)
           (mkTilePriority HIGH_RESOLUTION SOON f2_0) false.

(** An EVENTUALLY tile of NON_IDEAL_RESOLUTION that the pending tree needs
    NOW. *)
Definition tile_non_ideal_pending_now : Tile :=
  mkTile 5 (mkTilePriority NON_IDEAL_RESOLUTION EVENTUALLY f1_0)
           (mkTilePriority NON_IDEAL_RESOLUTION NOW f1_0) false.

(** SOON tiles of each resolution, the high-resolution one nearest. *)
Definition tile_soon_high : Tile :=
  mkTile 6 (mkTilePriority HIGH_RESOLUTION SOON f1_0)
           (mkTilePriority HIGH_RESOLUTION SOON f1_0) false.
Definition tile_soon_low : Tile :=
  mkTile 7 (mkTilePriority LOW_RESOLUTION SOON f2_0)
           (mkTilePriority LOW_RESOLUTION SOON f2_0) false.
Definition tile_soon_non_ideal : Tile :=
  mkTile 8 (mkTilePriority NON_IDEAL_RESOLUTION SOON f1_0)
           (mkTilePriority NON_IDEAL_RESOLUTION SOON f1_0) false.

(** ** What a pair emits *)

(** The iterator a layer of the pair creates under the policy; empty when
    the layer is absent. *)
Definition created_queue (tree_priority : TreePriority)
    (layer : option PictureLayerImpl) : TilingSetRasterQueue.t :=
  default []
    ((λ l, CreateRasterQueue l
             (bool_decide (tree_priority = SMOOTHNESS_TAKES_PRIORITY)))
       <$> layer).

(** The tiles the loop of [SkipTilesReturnedByTwin] accepts at the top of
    the iterator of [tree]: the tiles that are not shared, and the shared
    tiles [HigherPriorityTree] assigns to [tree]. A pair without both
    layers never runs the loop: every tile is accepted. *)
Definition accepts (tree_priority : TreePriority) (both : bool)
    (tree : WhichTree) (tile : Tile) : bool :=
  negb both
  || negb (is_shared tile)
  || bool_decide
       (HigherPriorityTree tree_priority None None (Some tile) = Some tree).

(** The tiles of the two iterators that are accepted on their side. *)
Definition due (q : PairedTilingSetQueue.t) (tree_priority : TreePriority)
  : list Tile :=
  filter (λ t, accepts tree_priority (PairedTilingSetQueue.has_both_layers q)
                 ACTIVE_TREE t = true)
         (default [] (PairedTilingSetQueue.active_queue q))
  ++ filter (λ t, accepts tree_priority
                    (PairedTilingSetQueue.has_both_layers q)
                    PENDING_TREE t = true)
            (default [] (PairedTilingSetQueue.pending_queue q)).

(** Invariant I2: the top of the selected iterator is accepted. *)
Definition settled (q : PairedTilingSetQueue.t) (tree_priority : TreePriority)
  : Prop :=
  ∀ tree tile rest,
    PairedTilingSetQueue.NextTileIteratorTree q tree_priority = Some tree →
    PairedTilingSetQueue.queue_of q tree = Some (tile :: rest) →
    accepts tree_priority (PairedTilingSetQueue.has_both_layers q) tree tile
    = true.

(** The tiles [Top] returns along [Pop] calls until the pair is empty;
    [None] when a call fails or [fuel] calls do not empty the pair. *)
Fixpoint pop_all (fuel : nat) (q : PairedTilingSetQueue.t)
    (tree_priority : TreePriority) : option (list Tile) :=
  if PairedTilingSetQueue.IsEmpty q then Some []
  else
    match fuel with
    | 0 => None
    | S fuel' =>
        tile ← PairedTilingSetQueue.Top q tree_priority;
        q' ← PairedTilingSetQueue.Pop q tree_priority;
        rest ← pop_all fuel' q' tree_priority;
        Some (tile :: rest)
    end.

(** An exhaustive sequence of [Pop] calls: every call removes a tile, so
    [tiles_left] calls suffice. *)
Definition exhaust (q : PairedTilingSetQueue.t) (tree_priority : TreePriority)
  : option (list Tile) :=
  pop_all (PairedTilingSetQueue.tiles_left q) q tree_priority.

(** A layer whose iterator yields the given tiles under either flag. *)
Definition layer_of (tiles : list Tile) : PictureLayerImpl :=
  mkLayer (λ _, tiles).

(** A shared tile that is nearer on the active tree than on the pending
    tree, and two tiles that are not shared. *)
Definition tile_shared : Tile :=
  mkTile 9 (mkTilePriority HIGH_RESOLUTION NOW f1_0)
           (mkTilePriority HIGH_RESOLUTION NOW f2_0) true.
Definition tile_active_own : Tile :=
  mkTile 10 (mkTilePriority HIGH_RESOLUTION NOW f2_0)
            (mkTilePriority HIGH_RESOLUTION NOW f2_0) false.
Definition tile_pending_own : Tile :=
  mkTile 11 (mkTilePriority HIGH_RESOLUTION NOW f3_0)
            (mkTilePriority HIGH_RESOLUTION NOW f3_0) false.

(** A pair of layers whose iterators both start with the shared tile. *)
Definition pair_with_shared_tile : Pair :=
  mkPair (Some (layer_of [tile_shared; tile_active_own]))
         (Some (layer_of [tile_shared; tile_pending_own])).

(** ** Invariants of the queue of pairs *)

(** I1: the vector of pairs is a heap under the comparator of the recorded
    policy. *)
Definition heap_ok (self : RasterTilePriorityQueue.t) : Prop :=
  is_heap (lower_priority (RasterTilePriorityQueue.tree_priority_ self))
          (RasterTilePriorityQueue.paired_queues_ self).

(** Every tile in the queue carries distances that are numbers. *)
Definition numeric_pairs (self : RasterTilePriorityQueue.t) : Prop :=
  Forall numeric_pair (RasterTilePriorityQueue.paired_queues_ self).

(** The iterators the layers of the pair create yield numeric tiles. *)
Definition numeric_layers (tree_priority : TreePriority) (layer_pair : Pair)
  : Prop :=
  Forall numeric_tile (created_queue tree_priority (active layer_pair))
  ∧ Forall numeric_tile (created_queue tree_priority (pending layer_pair)).

(** The contract of the iterators of a layer pair: each yields distinct
    tiles, and a tile both yield is shared. *)
Definition iterator_contract (tree_priority : TreePriority) (layer_pair : Pair)
  : Prop :=
  NoDup (created_queue tree_priority (active layer_pair))
  ∧ NoDup (created_queue tree_priority (pending layer_pair))
  ∧ (∀ t, t ∈ created_queue tree_priority (active layer_pair) →
          t ∈ created_queue tree_priority (pending layer_pair) →
          is_shared t = true).

(** A pair on which no debug check of [Top] and [Pop] can fail: it is
    settled, and its due tiles are distinct and not yet returned. *)
Definition pair_ready (tree_priority : TreePriority)
    (q : PairedTilingSetQueue.t) : Prop :=
  settled q tree_priority
  ∧ NoDup (due q tree_priority)
  ∧ (∀ t, t ∈ due q tree_priority →
          t ∉ PairedTilingSetQueue.returned_tiles_for_debug q).

Definition ready_pairs (self : RasterTilePriorityQueue.t) : Prop :=
  Forall (pair_ready (RasterTilePriorityQueue.tree_priority_ self))
         (RasterTilePriorityQueue.paired_queues_ self).

(** A pair over one active layer with three tiles, and a queue built from
    it and the pair with the shared tile. *)
Definition pair_active_layer : Pair :=
  mkPair (Some (layer_of [tile_soon_high; tile_soon_low; tile_far_eventually]))
         None.

Definition example_layers : list Pair :=
  [pair_active_layer; mkPair None None; pair_with_shared_tile].

(** The value of the first boolean entry [name] among [entries]. *)
Fixpoint find_boolean (entries : list PairedTilingSetQueue.TracedEntry)
    (name : string) : option bool :=
  match entries with
  | [] => None
  | PairedTilingSetQueue.SetBoolean n b :: rest =>
      if String.eqb n name then Some b else find_boolean rest name
  | PairedTilingSetQueue.SetInteger _ _ :: rest => find_boolean rest name
  end.

(** The value of the boolean entry [name] in the dictionary [dict] of a
    traced state. *)
Fixpoint traced_boolean
    (state : list (string * list PairedTilingSetQueue.TracedEntry))
    (dict name : string) : option bool :=
  match state with
  | [] => None
  | (d, entries) :: rest =>
      if String.eqb d dict then find_boolean entries name
      else traced_boolean rest dict name
  end.

(** A pair over one pending-tree iterator holding the given tiles. *)
Definition pending_only (tiles : list Tile) : PairedTilingSetQueue.t :=
  PairedTilingSetQueue.mk None (Some tiles) false ∅.

(** Two SOON tiles and one whose distance on the active tree is not a
    number. *)
Definition tile_soon_far : Tile :=
  mkTile 12 (mkTilePriority HIGH_RESOLUTION SOON f2_0)
            (mkTilePriority HIGH_RESOLUTION SOON f2_0) false.
Definition tile_soon_nan : Tile :=
  mkTile 13 (mkTilePriority HIGH_RESOLUTION SOON S754_nan)
            (mkTilePriority HIGH_RESOLUTION SOON f1_0) false.

(** ** A queue with a distance that is not a number *)

(** A NOW tile and a SOON tile of the active tree at the given distance,
    of high resolution and not shared. *)
Definition tile_now (id : N) (distance : spec_float) : Tile :=
  mkTile id (mkTilePriority HIGH_RESOLUTION NOW distance)
            (mkTilePriority HIGH_RESOLUTION NOW distance) false.
Definition tile_soon (id : N) (distance : spec_float) : Tile :=
  mkTile id (mkTilePriority HIGH_RESOLUTION SOON distance)
            (mkTilePriority HIGH_RESOLUTION SOON distance) false.

(** Nine active layers, none with a pending twin: the first yields two NOW
    tiles, at distances 1.0 and 2.0; the others yield one SOON tile each,
    five at distance 3.0, the one at index 3 at a distance that is not a
    number, and the last two at distance 1.0. *)
Definition layers_with_nan : list Pair :=
  (λ tiles, mkPair (Some (layer_of tiles)) None)
  <$> [ [tile_now 20 f1_0; tile_now 21 f2_0];
        [tile_soon 22 f3_0];
        [tile_soon 23 f3_0];
        [tile_soon 24 S754_nan];
        [tile_soon 25 f3_0];
        [tile_soon 26 f3_0];
        [tile_soon 27 f3_0];
        [tile_soon 28 f1_0];
        [tile_soon 29 f1_0] ].

(** The queue [Build] makes of these layers: the pairs in the order of
    the layers. *)
Definition built_with_nan : RasterTilePriorityQueue.t :=
  RasterTilePriorityQueue.mk
    [ active_only [tile_now 20 f1_0; tile_now 21 f2_0];
      active_only [tile_soon 22 f3_0];
      active_only [tile_soon 23 f3_0];
      active_only [tile_soon 24 S754_nan];
      active_only [tile_soon 25 f3_0];
      active_only [tile_soon 26 f3_0];
      active_only [tile_soon 27 f3_0];
      active_only [tile_soon 28 f1_0];
      active_only [tile_soon 29 f1_0] ]
    SAME_PRIORITY_FOR_BOTH_TREES.

(** The queue after one [Pop]. *)
Definition popped_with_nan : RasterTilePriorityQueue.t :=
  RasterTilePriorityQueue.mk
    [ PairedTilingSetQueue.mk (Some [tile_now 21 f2_0]) None false
        {[tile_now 20 f1_0]};
      active_only [tile_soon 29 f1_0];
      active_only [tile_soon 23 f3_0];
      active_only [tile_soon 22 f3_0];
      active_only [tile_soon 25 f3_0];
      active_only [tile_soon 26 f3_0];
      active_only [tile_soon 27 f3_0];
      active_only [tile_soon 28 f1_0];
      active_only [tile_soon 24 S754_nan] ]
    SAME_PRIORITY_FOR_BOTH_TREES.

(** ** Proof automation *)

(** Case analysis on the comparisons of natural numbers in the goal. *)
Ltac rank_cases :=
  unfold rank_lower;
  repeat match goal with
  | |- context [?x <? ?y] => destruct (Nat.ltb_spec x y)
  | |- context [?x =? ?y] => destruct (Nat.eqb_spec x y)
  end; simpl; try congruence; try lia.

(** ** Exhausting the queue of pairs *)

(** Tiles left in all the iterators of the queue. *)
Definition tiles_in_queue (self : RasterTilePriorityQueue.t) : nat :=
  sum_list_with PairedTilingSetQueue.tiles_left
    (RasterTilePriorityQueue.paired_queues_ self).

(** The tiles [Top] returns along [Pop] calls until [IsEmpty]; [None] when
    a call fails or [fuel] calls do not empty the queue. *)
Fixpoint pop_all_pairs (fuel : nat) (self : RasterTilePriorityQueue.t)
  : option (list Tile) :=
  if RasterTilePriorityQueue.IsEmpty self then Some []
  else
    match fuel with
    | 0 => None
    | S fuel' =>
        tile ← RasterTilePriorityQueue.Top self;
        self' ← RasterTilePriorityQueue.Pop self;
        rest ← pop_all_pairs fuel' self';
        Some (tile :: rest)
    end.

(** The client's loop [while (!queue.IsEmpty()) { queue.Top(); queue.Pop(); }]:
    every [Pop] removes a tile, so [tiles_in_queue] calls suffice. *)
Definition exhaust_queue (self : RasterTilePriorityQueue.t)
  : option (list Tile) :=
  pop_all_pairs (tiles_in_queue self) self.

(** The due tiles of all the pairs of the queue. *)
Definition due_in_queue (self : RasterTilePriorityQueue.t) : list Tile :=
  RasterTilePriorityQueue.paired_queues_ self
    ≫= λ q, due q (RasterTilePriorityQueue.tree_priority_ self).

(** The tiles of an iterator that are not shared. *)
Definition not_shared (tiles : list Tile) : list Tile :=
  filter (λ t, is_shared t = false) tiles.

(** [merged l1 l2 l]: [l] interleaves [l1] and [l2], each in its order. *)
Inductive merged {A : Type} : list A → list A → list A → Prop :=
| merged_nil : merged [] [] []
| merged_left x l1 l2 l : merged l1 l2 l → merged (x :: l1) l2 (x :: l)
| merged_right x l1 l2 l : merged l1 l2 l → merged l1 (x :: l2) (x :: l).

(** The value of the first integer entry [name] among [entries]. *)
Fixpoint find_integer (entries : list PairedTilingSetQueue.TracedEntry)
    (name : string) : option Z :=
  match entries with
  | [] => None
  | PairedTilingSetQueue.SetInteger n z :: rest =>
      if String.eqb n name then Some z else find_integer rest name
  | PairedTilingSetQueue.SetBoolean _ _ :: rest => find_integer rest name
  end.

(** The value of the integer entry [name] in the dictionary [dict] of a
    traced state. *)
Fixpoint traced_integer
    (state : list (string * list PairedTilingSetQueue.TracedEntry))
    (dict name : string) : option Z :=
  match state with
  | [] => None
  | (d, entries) :: rest =>
      if String.eqb d dict then find_integer entries name
      else traced_integer rest dict name
  end.

(** The tiles of the iterator of [tree] that are accepted there. *)
Definition due_on (q : PairedTilingSetQueue.t) (tree_priority : TreePriority)
    (tree : WhichTree) : list Tile :=
  filter (λ t, accepts tree_priority (PairedTilingSetQueue.has_both_layers q)
                 tree t = true)
         (default [] (PairedTilingSetQueue.queue_of q tree)).

(** The other tree. *)
Definition twin (tree : WhichTree) : WhichTree :=
  match tree with
  | ACTIVE_TREE => PENDING_TREE
  | PENDING_TREE => ACTIVE_TREE
  end.

(** The pair with [tile] recorded as returned, as [Pop] leaves it before it
    advances the iterator. *)
Definition with_returned (q : PairedTilingSetQueue.t) (tile : Tile)
  : PairedTilingSetQueue.t :=
  PairedTilingSetQueue.mk
    (PairedTilingSetQueue.active_queue q)
    (PairedTilingSetQueue.pending_queue q)
    (PairedTilingSetQueue.has_both_layers q)
    ({[tile]} ∪ PairedTilingSetQueue.returned_tiles_for_debug q).

(** The due tiles of the pair the constructor builds from a layer pair:
    the accepted tiles of the iterators its layers create. *)
Definition layer_pair_due (tree_priority : TreePriority) (layer_pair : Pair)
  : list Tile :=
  let both := bool_decide (is_Some (active layer_pair))
              && bool_decide (is_Some (pending layer_pair)) in
  filter (λ t, accepts tree_priority both ACTIVE_TREE t = true)
         (created_queue tree_priority (active layer_pair))
  ++ filter (λ t, accepts tree_priority both PENDING_TREE t = true)
            (created_queue tree_priority (pending layer_pair)).
(** * Properties *)

(** ** IEEE comparison *)

Lemma SFltb_irrefl x : SFltb x x = false.
Proof.
  unfold SFltb, SFcompare.
  destruct x as [[]|[]| |[] m e]; try done.
  all: rewrite Z.compare_refl, Pos.compare_cont_refl; done.
Qed.

Lemma SFltb_trans x y z :
  SFltb x y = true → SFltb y z = true → SFltb x z = true.
Proof.
  unfold SFltb, SFcompare.
  destruct x as [[]|[]| |[] mx ex], y as [[]|[]| |[] my ey],
    z as [[]|[]| |[] mz ez]; try (simpl; congruence).
  all: rewrite ?Pos.compare_cont_spec; simpl.
  all: destruct (Z.compare_spec ex ey), (Z.compare_spec ey ez),
         (Z.compare_spec ex ez); try congruence; try lia; subst.
  all: destruct (Pos.compare_spec mx my), (Pos.compare_spec my mz),
         (Pos.compare_spec mx mz); simpl; try congruence; try lia.
Qed.

Lemma SFltb_asym x y : SFltb x y = true → SFltb y x = false.
Proof.
  intros Hxy. destruct (SFltb y x) eqn:Hyx; [|done].
  rewrite <-(SFltb_irrefl x). symmetry. by eapply SFltb_trans.
Qed.

(** On numbers, [not (x < y)] is transitive; with a NaN it is not. *)
Lemma SFltb_negtrans x y z :
  is_number y = true →
  SFltb x y = false → SFltb y z = false → SFltb x z = false.
Proof.
  unfold SFltb, SFcompare.
  destruct x as [[]|[]| |[] mx ex], y as [[]|[]| |[] my ey],
    z as [[]|[]| |[] mz ez]; try (simpl; congruence).
  all: rewrite ?Pos.compare_cont_spec; simpl; intros _.
  all: destruct (Z.compare_spec ex ey), (Z.compare_spec ey ez),
         (Z.compare_spec ex ez); try congruence; try lia; subst.
  all: destruct (Pos.compare_spec mx my), (Pos.compare_spec my mz),
         (Pos.compare_spec mx mz); simpl; try congruence; try lia.
Qed.

(** ** The comparator on tiles *)

Lemma tile_lower_rank tp ta tb : tile_lower tp ta tb = rank_lower tp ta tb.
Proof.
  unfold rank_lower, class_rank, resolution_rank, distance_rank,
    pending_now_class, tile_lower, resolution_then_fallback,
    IsHigherPriorityThan.
  destruct ta as [ia [ra ba da] [ra' ba' da'] sa],
    tb as [ib [rb bb db] [rb' bb' db'] sb].
  unfold is_pending_now. simpl.
  destruct tp; simpl.
  - destruct ba, bb, ra, rb; simpl; try reflexivity;
      rewrite ?SFltb_irrefl; reflexivity.
  - destruct (bool_decide (ba' = NOW)), (bool_decide (bb' = NOW));
      destruct ba, bb, ra, rb; simpl; reflexivity.
  - destruct ba', bb', ra', rb'; simpl; reflexivity.
Qed.

Lemma rank_lower_irrefl tp t : rank_lower tp t t = false.
Proof.
  unfold rank_lower. rewrite !Nat.ltb_irrefl, !Nat.eqb_refl, SFltb_irrefl.
  reflexivity.
Qed.

Lemma rank_lower_trans tp ta tb tc :
  rank_lower tp ta tb = true → rank_lower tp tb tc = true →
  rank_lower tp ta tc = true.
Proof.
  rank_cases. intros Hba Hcb. by eapply SFltb_trans.
Qed.

Lemma rank_lower_asym tp ta tb :
  rank_lower tp ta tb = true → rank_lower tp tb ta = false.
Proof.
  intros Hab. destruct (rank_lower tp tb ta) eqn:Hba; [|done].
  rewrite <-(rank_lower_irrefl tp ta). symmetry. by eapply rank_lower_trans.
Qed.

Lemma distance_rank_number tp t :
  numeric_tile t → is_number (distance_rank tp t) = true.
Proof.
  intros [Ha Hp]. unfold distance_rank.
  destruct (pending_now_class tp t); [done|]. by destruct tp.
Qed.

(** "Not lower" is transitive through a numeric tile. *)
Lemma rank_lower_negtrans tp ta tb tc :
  numeric_tile tb →
  rank_lower tp ta tb = false → rank_lower tp tb tc = false →
  rank_lower tp ta tc = false.
Proof.
  intros Hb. pose proof (distance_rank_number tp tb Hb) as Hn. revert Hn.
  rank_cases. intros Hn Hba Hcb. by eapply SFltb_negtrans.
Qed.

(** ** What the comparator reads from a pair *)

Lemma next_tile_empty q tp :
  PairedTilingSetQueue.IsEmpty q = true → next_tile q tp = None.
Proof.
  intros He. unfold next_tile, PairedTilingSetQueue.NextTileIteratorTree.
  by rewrite He.
Qed.

(** A pair that is not empty has a selected iterator, and that iterator has
    a top. *)
Lemma NextTileIteratorTree_nonempty q tp :
  PairedTilingSetQueue.IsEmpty q = false →
  ∃ tree tile rest,
    PairedTilingSetQueue.NextTileIteratorTree q tp = Some tree
    ∧ PairedTilingSetQueue.queue_of q tree = Some (tile :: rest).
Proof.
  unfold PairedTilingSetQueue.NextTileIteratorTree,
    PairedTilingSetQueue.IsEmpty.
  destruct q as [[[|ta la]|] [[|tb lb]|] both ret]; simpl; try done;
    intros _; try (by eexists _, _, _).
  unfold HigherPriorityTree.
  destruct tp; simpl.
  - destruct (IsHigherPriorityThan _ _); by eexists _, _, _.
  - destruct (_ && _); by eexists _, _, _.
  - by eexists _, _, _.
Qed.

Lemma next_tile_nonempty q tp :
  PairedTilingSetQueue.IsEmpty q = false → is_Some (next_tile q tp).
Proof.
  intros He.
  destruct (NextTileIteratorTree_nonempty q tp He) as (tree & tile & rest & Hn & Hq).
  unfold next_tile. rewrite Hn. simpl. rewrite Hq. by eexists.
Qed.

Lemma next_tile_Some_nonempty q tp tile :
  next_tile q tp = Some tile → PairedTilingSetQueue.IsEmpty q = false.
Proof.
  intros Hn. destruct (PairedTilingSetQueue.IsEmpty q) eqn:He; [|done].
  by rewrite next_tile_empty in Hn.
Qed.

(** The source's sequence of tests is [tile_lower]. *)
Lemma RasterOrderComparator_key tp a b :
  RasterOrderComparator tp a b
  = Some (key_lower tp (next_tile a tp) (next_tile b tp)).
Proof.
  unfold RasterOrderComparator.
  destruct (PairedTilingSetQueue.IsEmpty a) eqn:Ha,
    (PairedTilingSetQueue.IsEmpty b) eqn:Hb; simpl.
  - by rewrite !next_tile_empty.
  - rewrite (next_tile_empty a) by done.
    by destruct (next_tile_nonempty b tp Hb) as [tb ->].
  - rewrite (next_tile_empty b) by done.
    by destruct (next_tile a tp).
  - destruct (NextTileIteratorTree_nonempty a tp Ha) as (wa & ta & la & Hna & Hqa).
    destruct (NextTileIteratorTree_nonempty b tp Hb) as (wb & tb & lb & Hnb & Hqb).
    unfold next_tile. rewrite Hna, Hnb. simpl. rewrite Hqa, Hqb. simpl.
    unfold tile_lower, resolution_then_fallback, is_pending_now.
    destruct ta as [ia [ra ba da] [ra' ba' da'] sa],
      tb as [ib [rb bb db] [rb' bb' db'] sb]; simpl.
    destruct tp; simpl.
    + destruct ba, bb, ra, rb; reflexivity.
    + destruct (bool_decide (ba' = NOW)), (bool_decide (bb' = NOW));
        destruct ba, bb, ra, rb; reflexivity.
    + destruct ba', bb', ra', rb'; reflexivity.
Qed.

Lemma RasterOrderComparator_total tp a b :
  is_Some (RasterOrderComparator tp a b).
Proof. rewrite RasterOrderComparator_key. by eexists. Qed.

Lemma lower_priority_key tp a b :
  lower_priority tp a b = key_lower tp (next_tile a tp) (next_tile b tp).
Proof. unfold lower_priority. by rewrite RasterOrderComparator_key. Qed.

Lemma next_tile_in q tp tile :
  next_tile q tp = Some tile →
  tile ∈ default [] (PairedTilingSetQueue.active_queue q)
  ∨ tile ∈ default [] (PairedTilingSetQueue.pending_queue q).
Proof.
  intros Hn.
  pose proof (next_tile_Some_nonempty q tp tile Hn) as He.
  destruct (NextTileIteratorTree_nonempty q tp He)
    as (tree & tile' & rest & Ht & Hq).
  unfold next_tile in Hn. rewrite Ht in Hn. simpl in Hn.
  rewrite Hq in Hn. injection Hn as <-.
  destruct tree; simpl in Hq; rewrite Hq; simpl; [left|right]; left.
Qed.

Lemma numeric_next_tile q tp tile :
  numeric_pair q → next_tile q tp = Some tile → numeric_tile tile.
Proof.
  intros [Ha Hp] [Hin|Hin]%next_tile_in.
  - by eapply Forall_forall in Ha.
  - by eapply Forall_forall in Hp.
Qed.

(** ** Order properties on keys *)

Lemma key_lower_irrefl tp k : key_lower tp k k = false.
Proof.
  destruct k as [t|]; [|done]. simpl.
  by rewrite tile_lower_rank, rank_lower_irrefl.
Qed.

Lemma key_lower_asym tp ka kb :
  key_lower tp ka kb = true → key_lower tp kb ka = false.
Proof.
  destruct ka as [ta|], kb as [tb|]; simpl; try done.
  rewrite !tile_lower_rank. apply rank_lower_asym.
Qed.

Lemma key_lower_trans tp ka kb kc :
  key_lower tp ka kb = true → key_lower tp kb kc = true →
  key_lower tp ka kc = true.
Proof.
  destruct ka as [ta|], kb as [tb|], kc as [tc|]; simpl; try done.
  rewrite !tile_lower_rank. apply rank_lower_trans.
Qed.

Lemma key_lower_negtrans tp ka kb kc :
  (∀ tb, kb = Some tb → numeric_tile tb) →
  key_lower tp ka kb = false → key_lower tp kb kc = false →
  key_lower tp ka kc = false.
Proof.
  destruct ka as [ta|], kb as [tb|], kc as [tc|]; simpl; try done.
  rewrite !tile_lower_rank. intros Hn. apply rank_lower_negtrans. by apply Hn.
Qed.

(** ** The skip loop and the pair's [Pop] *)

Lemma tiles_left_nonempty q :
  PairedTilingSetQueue.IsEmpty q = false →
  0 < PairedTilingSetQueue.tiles_left q.
Proof.
  destruct q as [[[|ta la]|] [[|tb lb]|] both ret];
    unfold PairedTilingSetQueue.IsEmpty, PairedTilingSetQueue.tiles_left;
    simpl; try done; lia.
Qed.

Lemma tiles_left_pop_queue q tree tile rest :
  PairedTilingSetQueue.queue_of q tree = Some (tile :: rest) →
  PairedTilingSetQueue.tiles_left q
  = S (PairedTilingSetQueue.tiles_left (PairedTilingSetQueue.pop_queue q tree)).
Proof.
  destruct q as [aq pq both ret], tree;
    unfold PairedTilingSetQueue.tiles_left; simpl; intros ->; simpl; lia.
Qed.

Lemma has_both_pop_queue q tree :
  PairedTilingSetQueue.has_both_layers (PairedTilingSetQueue.pop_queue q tree)
  = PairedTilingSetQueue.has_both_layers q.
Proof. by destruct tree. Qed.

Lemma returned_pop_queue q tree :
  PairedTilingSetQueue.returned_tiles_for_debug
    (PairedTilingSetQueue.pop_queue q tree)
  = PairedTilingSetQueue.returned_tiles_for_debug q.
Proof. by destruct tree. Qed.

(** Popping a tile that is not accepted leaves the due tiles as they are. *)
Lemma due_pop_queue_rejected q tp tree tile rest :
  PairedTilingSetQueue.queue_of q tree = Some (tile :: rest) →
  accepts tp (PairedTilingSetQueue.has_both_layers q) tree tile = false →
  due (PairedTilingSetQueue.pop_queue q tree) tp = due q tp.
Proof.
  destruct q as [aq pq both ret], tree; unfold due; simpl;
    intros -> Hr; simpl; rewrite filter_cons_False; try done;
    by rewrite Hr.
Qed.

(** Popping an accepted tile removes it from the due tiles. *)
Lemma due_pop_queue_accepted q tp tree tile rest :
  PairedTilingSetQueue.queue_of q tree = Some (tile :: rest) →
  accepts tp (PairedTilingSetQueue.has_both_layers q) tree tile = true →
  due q tp ≡ₚ tile :: due (PairedTilingSetQueue.pop_queue q tree) tp.
Proof.
  destruct q as [aq pq both ret], tree; unfold due; simpl;
    intros -> Ha; simpl; rewrite filter_cons_True by done.
  - done.
  - by rewrite Permutation_middle.
Qed.

Lemma HigherPriorityTree_shared_total tp aq pq tile :
  is_Some (HigherPriorityTree tp aq pq (Some tile)).
Proof.
  destruct tp; simpl; try by eexists.
  - destruct (IsHigherPriorityThan _ _); by eexists.
  - destruct (_ && _); by eexists.
Qed.

Lemma settled_empty q tp :
  PairedTilingSetQueue.IsEmpty q = true → settled q tp.
Proof.
  intros He tree tile rest.
  unfold PairedTilingSetQueue.NextTileIteratorTree. by rewrite He.
Qed.

(** The loop exits within [tiles_left] iterations; it pops rejected tiles
    only and ends in a settled state. *)
Lemma skip_loop_spec tp fuel q :
  PairedTilingSetQueue.tiles_left q ≤ fuel →
  PairedTilingSetQueue.has_both_layers q = true →
  ∃ q',
    PairedTilingSetQueue.skip_loop fuel q tp = Some q'
    ∧ due q' tp = due q tp
    ∧ PairedTilingSetQueue.returned_tiles_for_debug q'
      = PairedTilingSetQueue.returned_tiles_for_debug q
    ∧ PairedTilingSetQueue.has_both_layers q' = true
    ∧ settled q' tp
    ∧ PairedTilingSetQueue.tiles_left q' ≤ PairedTilingSetQueue.tiles_left q.
Proof.
  revert q. induction fuel as [|fuel IH]; intros q Hfuel Hboth.
  - destruct (PairedTilingSetQueue.IsEmpty q) eqn:He.
    + exists q. simpl. rewrite He. eauto 10 using settled_empty.
    + apply tiles_left_nonempty in He. lia.
  - simpl. destruct (PairedTilingSetQueue.IsEmpty q) eqn:He.
    { exists q. eauto 10 using settled_empty. }
    destruct (NextTileIteratorTree_nonempty q tp He)
      as (tree & tile & rest & Hn & Hq).
    rewrite Hn. simpl. rewrite Hq. simpl.
    destruct (is_shared tile) eqn:Hs; simpl.
    2:{ exists q. repeat split; try done.
        intros tree' tile' rest'. rewrite Hn, Hboth. intros [= <-].
        rewrite Hq. intros [= <- <-]. unfold accepts. by rewrite Hs. }
    destruct (HigherPriorityTree_shared_total tp None None tile) as [owner Ho].
    rewrite Ho. simpl.
    destruct (bool_decide (tree = owner)) eqn:Hd.
    + apply bool_decide_eq_true in Hd as <-.
      exists q. repeat split; try done.
      intros tree' tile' rest'. rewrite Hn, Hboth. intros [= <-].
      rewrite Hq. intros [= <- <-]. unfold accepts.
      rewrite Ho, bool_decide_eq_true_2 by done. by rewrite orb_true_r.
    + apply bool_decide_eq_false in Hd.
      pose proof (tiles_left_pop_queue q tree tile rest Hq) as Hl.
      destruct (IH (PairedTilingSetQueue.pop_queue q tree))
        as (q' & Hq' & Hdue & Hret & Hb & Hset & Hle).
      { lia. }
      { by rewrite has_both_pop_queue. }
      exists q'. repeat split; try done.
      * rewrite Hdue. eapply due_pop_queue_rejected; [done|].
        unfold accepts. rewrite Hboth, Hs, Ho. simpl.
        apply bool_decide_eq_false. congruence.
      * by rewrite Hret, returned_pop_queue.
      * lia.
Qed.

Lemma SkipTilesReturnedByTwin_spec tp q :
  PairedTilingSetQueue.has_both_layers q = true →
  ∃ q',
    PairedTilingSetQueue.SkipTilesReturnedByTwin q tp = Some q'
    ∧ due q' tp = due q tp
    ∧ PairedTilingSetQueue.returned_tiles_for_debug q'
      = PairedTilingSetQueue.returned_tiles_for_debug q
    ∧ PairedTilingSetQueue.has_both_layers q' = true
    ∧ settled q' tp
    ∧ PairedTilingSetQueue.tiles_left q' ≤ PairedTilingSetQueue.tiles_left q.
Proof. intros Hb. by apply skip_loop_spec. Qed.

Lemma Top_selected q tp tree tile rest :
  PairedTilingSetQueue.NextTileIteratorTree q tp = Some tree →
  PairedTilingSetQueue.queue_of q tree = Some (tile :: rest) →
  tile ∉ PairedTilingSetQueue.returned_tiles_for_debug q →
  PairedTilingSetQueue.Top q tp = Some tile.
Proof.
  intros Hn Hq Hr. unfold PairedTilingSetQueue.Top.
  destruct (PairedTilingSetQueue.IsEmpty q) eqn:He.
  { unfold PairedTilingSetQueue.NextTileIteratorTree in Hn.
    by rewrite He in Hn. }
  rewrite Hn. simpl. rewrite Hq. simpl.
  by rewrite bool_decide_eq_false_2.
Qed.

Lemma settled_one_layer q tp :
  PairedTilingSetQueue.has_both_layers q = false → settled q tp.
Proof. intros Hb tree tile rest _ _. unfold accepts. by rewrite Hb. Qed.

(** One [Pop] of a settled pair whose due tiles are distinct and not yet
    returned: it returns the top, which is a due tile, and leaves a settled
    pair with the other due tiles. *)
Lemma Pop_spec tp q :
  PairedTilingSetQueue.IsEmpty q = false →
  settled q tp →
  NoDup (due q tp) →
  (∀ t, t ∈ due q tp → t ∉ PairedTilingSetQueue.returned_tiles_for_debug q) →
  ∃ tile q',
    PairedTilingSetQueue.Top q tp = Some tile
    ∧ PairedTilingSetQueue.Pop q tp = Some q'
    ∧ due q tp ≡ₚ tile :: due q' tp
    ∧ PairedTilingSetQueue.returned_tiles_for_debug q'
      = {[tile]} ∪ PairedTilingSetQueue.returned_tiles_for_debug q
    ∧ PairedTilingSetQueue.has_both_layers q'
      = PairedTilingSetQueue.has_both_layers q
    ∧ settled q' tp
    ∧ PairedTilingSetQueue.tiles_left q' < PairedTilingSetQueue.tiles_left q.
Proof.
  intros He Hset Hnd Hfresh.
  destruct (NextTileIteratorTree_nonempty q tp He)
    as (tree & tile & rest & Hn & Hq).
  pose proof (Hset _ _ _ Hn Hq) as Hacc.
  pose proof (due_pop_queue_accepted q tp tree tile rest Hq Hacc) as Hperm.
  assert (tile ∉ PairedTilingSetQueue.returned_tiles_for_debug q) as Hnew.
  { apply Hfresh. rewrite Hperm. left. }
  exists tile. rewrite (Top_selected q tp tree tile rest) by done.
  unfold PairedTilingSetQueue.Pop. rewrite He, Hn. simpl. rewrite Hq. simpl.
  rewrite bool_decide_eq_false_2 by done.
  pose proof (tiles_left_pop_queue q tree tile rest Hq) as Hl.
  rewrite Hperm in Hnd. apply NoDup_cons in Hnd as [Hnotin Hnd].
  destruct q as [aq pq both ret]. simpl in *.
  set (popped := PairedTilingSetQueue.pop_queue
                   (PairedTilingSetQueue.mk aq pq both ({[tile]} ∪ ret)) tree).
  assert (due popped tp
          = due (PairedTilingSetQueue.pop_queue
                   (PairedTilingSetQueue.mk aq pq both ret) tree) tp) as Hdue
    by (by destruct tree).
  assert (PairedTilingSetQueue.tiles_left popped
          = PairedTilingSetQueue.tiles_left
              (PairedTilingSetQueue.pop_queue
                 (PairedTilingSetQueue.mk aq pq both ret) tree)) as Hleft
    by (by destruct tree).
  assert (PairedTilingSetQueue.returned_tiles_for_debug popped
          = {[tile]} ∪ ret) as Hret by (by destruct tree).
  assert (PairedTilingSetQueue.has_both_layers popped = both) as Hboth
    by (by destruct tree).
  rewrite Hboth.
  (* the state after the skip loop, if it runs *)
  assert (∃ skipped,
            (if both
             then PairedTilingSetQueue.SkipTilesReturnedByTwin popped tp
             else Some popped) = Some skipped
            ∧ due skipped tp = due popped tp
            ∧ PairedTilingSetQueue.returned_tiles_for_debug skipped
              = {[tile]} ∪ ret
            ∧ PairedTilingSetQueue.has_both_layers skipped = both
            ∧ settled skipped tp
            ∧ PairedTilingSetQueue.tiles_left skipped
              ≤ PairedTilingSetQueue.tiles_left popped)
    as (skipped & -> & Hd & Hr & Hb & Hs & Hle).
  { destruct both.
    - destruct (SkipTilesReturnedByTwin_spec tp popped Hboth)
        as (s & ? & ? & ? & ? & ? & ?).
      exists s. repeat split; try done. congruence.
    - exists popped. repeat split; try done.
      by apply settled_one_layer. }
  simpl.
  assert ((if PairedTilingSetQueue.IsEmpty skipped then Some skipped
           else PairedTilingSetQueue.Top skipped tp ≫= λ _, Some skipped)
          = Some skipped) as ->.
  { destruct (PairedTilingSetQueue.IsEmpty skipped) eqn:He'; [done|].
    destruct (NextTileIteratorTree_nonempty skipped tp He')
      as (tree' & tile' & rest' & Hn' & Hq').
    rewrite (Top_selected skipped tp tree' tile' rest'); try done.
    pose proof (Hs _ _ _ Hn' Hq') as Hacc'.
    pose proof (due_pop_queue_accepted skipped tp tree' tile' rest' Hq' Hacc')
      as Hperm'.
    assert (tile' ∈ due popped tp) as Hin.
    { rewrite <-Hd, Hperm'. left. }
    rewrite Hdue in Hin. rewrite Hr.
    intros [->%elem_of_singleton | Hold]%elem_of_union; [done|].
    eapply Hfresh; [|done]. rewrite Hperm. by right. }
  exists skipped. repeat split; try done.
  - by rewrite Hperm, Hd, Hdue.
  - lia.
Qed.

(** ** Exhausting a pair *)

(** Popping a settled pair until it is empty returns its due tiles, each
    once. *)
Lemma pop_all_spec tp fuel q :
  PairedTilingSetQueue.tiles_left q ≤ fuel →
  settled q tp →
  NoDup (due q tp) →
  (∀ t, t ∈ due q tp → t ∉ PairedTilingSetQueue.returned_tiles_for_debug q) →
  ∃ emitted, pop_all fuel q tp = Some emitted ∧ emitted ≡ₚ due q tp.
Proof.
  revert q. induction fuel as [|fuel IH]; intros q Hfuel Hset Hnd Hfresh;
    simpl; destruct (PairedTilingSetQueue.IsEmpty q) eqn:He.
  - exists []. split; [done|].
    destruct q as [[[|ta la]|] [[|tb lb]|] both ret]; done.
  - apply tiles_left_nonempty in He. lia.
  - exists []. split; [done|].
    destruct q as [[[|ta la]|] [[|tb lb]|] both ret]; done.
  - destruct (Pop_spec tp q He Hset Hnd Hfresh)
      as (tile & q' & -> & -> & Hperm & Hret & Hboth & Hset' & Hlt).
    simpl. rewrite Hperm in Hnd. apply NoDup_cons in Hnd as [Hnotin Hnd].
    destruct (IH q') as (rest & -> & Hrest); try done.
    + lia.
    + intros t Ht. rewrite Hret.
      intros [->%elem_of_singleton | Hold]%elem_of_union; [done|].
      eapply Hfresh; [|done]. rewrite Hperm. by right.
    + exists (tile :: rest). split; [done|]. by rewrite Hperm, Hrest.
Qed.

(** A pair over one iterator returns that iterator's tiles in its order. *)
Lemma pop_all_active_only tp fuel tiles ret :
  length tiles ≤ fuel →
  NoDup tiles →
  (∀ t, t ∈ tiles → t ∉ ret) →
  pop_all fuel (PairedTilingSetQueue.mk (Some tiles) None false ret) tp
  = Some tiles.
Proof.
  revert tiles ret.
  induction fuel as [|fuel IH]; intros [|tile tiles] ret Hfuel Hnd Hfresh;
    simpl in *; try done; try lia.
  apply NoDup_cons in Hnd as [Hnotin Hnd].
  unfold PairedTilingSetQueue.Top, PairedTilingSetQueue.Pop,
    PairedTilingSetQueue.IsEmpty, PairedTilingSetQueue.NextTileIteratorTree.
  simpl.
  rewrite bool_decide_eq_false_2 by (apply Hfresh; left). simpl.
  assert (∀ t, t ∈ tiles → t ∉ ({[tile]} ∪ ret : gset Tile)) as Hfresh'.
  { intros t Ht [->%elem_of_singleton | Hold]%elem_of_union; [done|].
    eapply Hfresh; [|done]. by right. }
  destruct tiles as [|next tiles]; simpl.
  - by destruct fuel.
  - unfold PairedTilingSetQueue.Top, PairedTilingSetQueue.IsEmpty,
      PairedTilingSetQueue.NextTileIteratorTree. simpl.
    rewrite bool_decide_eq_false_2 by (apply Hfresh'; left). simpl.
    rewrite IH; [done|simpl in *; lia|done|done].
Qed.

Lemma pop_all_pending_only tp fuel tiles ret :
  length tiles ≤ fuel →
  NoDup tiles →
  (∀ t, t ∈ tiles → t ∉ ret) →
  pop_all fuel (PairedTilingSetQueue.mk None (Some tiles) false ret) tp
  = Some tiles.
Proof.
  revert tiles ret.
  induction fuel as [|fuel IH]; intros [|tile tiles] ret Hfuel Hnd Hfresh;
    simpl in *; try done; try lia.
  apply NoDup_cons in Hnd as [Hnotin Hnd].
  unfold PairedTilingSetQueue.Top, PairedTilingSetQueue.Pop,
    PairedTilingSetQueue.IsEmpty, PairedTilingSetQueue.NextTileIteratorTree.
  simpl.
  rewrite bool_decide_eq_false_2 by (apply Hfresh; left). simpl.
  assert (∀ t, t ∈ tiles → t ∉ ({[tile]} ∪ ret : gset Tile)) as Hfresh'.
  { intros t Ht [->%elem_of_singleton | Hold]%elem_of_union; [done|].
    eapply Hfresh; [|done]. by right. }
  destruct tiles as [|next tiles]; simpl.
  - by destruct fuel.
  - unfold PairedTilingSetQueue.Top, PairedTilingSetQueue.IsEmpty,
      PairedTilingSetQueue.NextTileIteratorTree. simpl.
    rewrite bool_decide_eq_false_2 by (apply Hfresh'; left). simpl.
    rewrite IH; [done|simpl in *; lia|done|done].
Qed.

(** The constructor: the pair it builds is settled, has returned nothing,
    and its due tiles are the accepted tiles of the two created
    iterators. *)
Lemma new_spec layer_pair tp :
  ∃ q,
    PairedTilingSetQueue.new layer_pair tp = Some q
    ∧ PairedTilingSetQueue.has_both_layers q
      = bool_decide (is_Some (active layer_pair))
        && bool_decide (is_Some (pending layer_pair))
    ∧ due q tp
      = filter (λ t, accepts tp (PairedTilingSetQueue.has_both_layers q)
                       ACTIVE_TREE t = true)
               (created_queue tp (active layer_pair))
        ++ filter (λ t, accepts tp (PairedTilingSetQueue.has_both_layers q)
                          PENDING_TREE t = true)
                  (created_queue tp (pending layer_pair))
    ∧ PairedTilingSetQueue.returned_tiles_for_debug q = ∅
    ∧ settled q tp
    ∧ PairedTilingSetQueue.tiles_left q
      ≤ length (created_queue tp (active layer_pair))
        + length (created_queue tp (pending layer_pair)).
Proof.
  unfold PairedTilingSetQueue.new. simpl.
  destruct (bool_decide (is_Some (active layer_pair))
            && bool_decide (is_Some (pending layer_pair))) eqn:Hboth.
  - match goal with
    | |- context [PairedTilingSetQueue.SkipTilesReturnedByTwin ?raw tp] =>
        destruct (SkipTilesReturnedByTwin_spec tp raw eq_refl)
          as (q & -> & Hdue & Hret & Hb & Hset & Hle)
    end.
    exists q. rewrite Hb. repeat split; try done.
  - eexists. repeat split; done.
Qed.

(** Under the iterator contract the constructed pair is ready. *)
Lemma new_ready layer_pair tp :
  iterator_contract tp layer_pair →
  ∃ q, PairedTilingSetQueue.new layer_pair tp = Some q ∧ pair_ready tp q.
Proof.
  intros (Hna & Hnp & Hshared).
  destruct (new_spec layer_pair tp)
    as (q & Hnew & Hboth & Hdue & Hret & Hset & Hle).
  exists q. split; [done|]. split; [done|]. split.
  - rewrite Hdue. apply NoDup_app. repeat split.
    + by apply NoDup_filter.
    + intros t [Ha Hta]%list_elem_of_filter [Hp Htp]%list_elem_of_filter.
      pose proof (Hshared t Hta Htp) as Hs.
      assert (PairedTilingSetQueue.has_both_layers q = true) as Hb.
      { rewrite Hboth. unfold created_queue in Hta, Htp.
        destruct (active layer_pair), (pending layer_pair); simpl in *;
          try done; by apply elem_of_nil in Hta || apply elem_of_nil in Htp. }
      unfold accepts in Ha, Hp. rewrite Hb, Hs in Ha, Hp. simpl in *.
      apply bool_decide_eq_true in Ha, Hp. congruence.
    + by apply NoDup_filter.
  - intros t _. rewrite Hret. set_solver.
Qed.

(** [Pop] on a ready pair that is not empty succeeds and leaves a ready
    pair. *)
Lemma Pop_ready tp q :
  pair_ready tp q → PairedTilingSetQueue.IsEmpty q = false →
  ∃ q', PairedTilingSetQueue.Pop q tp = Some q' ∧ pair_ready tp q'.
Proof.
  intros (Hset & Hnd & Hfresh) He.
  destruct (Pop_spec tp q He Hset Hnd Hfresh)
    as (tile & q' & _ & Hpop & Hperm & Hret & Hboth & Hset' & Hlt).
  exists q'. split; [done|]. split; [done|].
  rewrite Hperm in Hnd. apply NoDup_cons in Hnd as [Hnotin Hnd].
  split; [done|].
  intros t Ht. rewrite Hret.
  intros [->%elem_of_singleton | Hold]%elem_of_union; [done|].
  eapply Hfresh; [|done]. rewrite Hperm. by right.
Qed.

(** ** The heap algorithms *)

Section heap_properties.
Context {A : Type} (comp : A → A → bool).

Lemma length_swap (v : list A) i j : length (swap v i j) = length v.
Proof.
  unfold swap. destruct (v !! i), (v !! j); try done.
  by rewrite !length_insert.
Qed.

Lemma lookup_swap (v : list A) i j k :
  i < length v → j < length v →
  swap v i j !! k
  = if decide (k = i) then v !! j
    else if decide (k = j) then v !! i else v !! k.
Proof.
  intros Hi Hj. unfold swap.
  destruct (lookup_lt_is_Some_2 v i Hi) as [x Hx].
  destruct (lookup_lt_is_Some_2 v j Hj) as [y Hy].
  rewrite Hx, Hy.
  destruct (decide (k = i)) as [->|Hki].
  - by rewrite list_lookup_insert_eq by (by rewrite length_insert).
  - rewrite list_lookup_insert_ne by done.
    destruct (decide (k = j)) as [->|Hkj].
    + by rewrite list_lookup_insert_eq.
    + by rewrite list_lookup_insert_ne.
Qed.

Lemma swap_Permutation (v : list A) i j : swap v i j ≡ₚ v.
Proof.
  unfold swap.
  destruct (v !! i) as [x|] eqn:Hx, (v !! j) as [y|] eqn:Hy; try done.
  apply Permutation_inj. split; [by rewrite !length_insert|].
  exists (λ k, if decide (k = i) then j else if decide (k = j) then i else k).
  split.
  - intros a b. repeat case_decide; congruence.
  - intros k.
    assert (i < length v) by (by eapply lookup_lt_Some).
    assert (j < length v) by (by eapply lookup_lt_Some).
    destruct (decide (k = i)) as [->|Hki].
    + rewrite list_lookup_insert_eq by (by rewrite length_insert). done.
    + rewrite list_lookup_insert_ne by done.
      destruct (decide (k = j)) as [->|Hkj].
      * by rewrite list_lookup_insert_eq.
      * by rewrite list_lookup_insert_ne.
Qed.

Lemma sift_up_Permutation fuel (v : list A) i : sift_up comp fuel v i ≡ₚ v.
Proof.
  revert v i. induction fuel as [|fuel IH]; intros v i; simpl; [done|].
  case_bool_decide; [done|].
  destruct (comp_at comp v (parent i) i); [|done].
  by rewrite IH, swap_Permutation.
Qed.

Lemma sift_down_Permutation fuel (v : list A) i :
  sift_down comp fuel v i ≡ₚ v.
Proof.
  revert v i. induction fuel as [|fuel IH]; intros v i; simpl; [done|].
  case_bool_decide; [done|].
  by rewrite IH, swap_Permutation.
Qed.

Lemma push_heap_Permutation (v : list A) : push_heap comp v ≡ₚ v.
Proof. apply sift_up_Permutation. Qed.

Lemma pop_heap_Permutation (v : list A) : pop_heap comp v ≡ₚ v.
Proof.
  unfold pop_heap.
  by rewrite sift_down_Permutation, take_drop, swap_Permutation.
Qed.

Lemma heapify_Permutation k (v : list A) : heapify comp k v ≡ₚ v.
Proof.
  revert v. induction k as [|k IH]; intros v; simpl; [done|].
  by rewrite IH, sift_down_Permutation.
Qed.

Lemma make_heap_Permutation (v : list A) : make_heap comp v ≡ₚ v.
Proof. apply heapify_Permutation. Qed.

(** [pop_heap] moves the root to the last position. *)
Lemma pop_heap_shape (v : list A) root others :
  v = root :: others →
  ∃ rest, pop_heap comp v = rest ++ [root] ∧ rest ≡ₚ others.
Proof.
  intros ->.
  pose proof (pop_heap_Permutation (root :: others)) as Hperm.
  unfold pop_heap in *. simpl length in *.
  replace (S (length others) - 1) with (length others) in * by lia.
  set (w := swap (root :: others) 0 (length others)) in *.
  assert (length w = S (length others)) as Hlw
    by (unfold w; by rewrite length_swap).
  assert (drop (length others) w = [root]) as Hdrop.
  { assert (w !! length others = Some root) as Hlast.
    { unfold w. rewrite lookup_swap by (simpl; lia).
      case_decide as Hz; [by rewrite Hz|]. by rewrite decide_True. }
    rewrite (drop_S _ _ _ Hlast). by rewrite drop_ge by lia. }
  rewrite Hdrop in *.
  eexists. split; [done|].
  apply (Permutation_app_inv_r [root]).
  rewrite Hperm. by rewrite Permutation_cons_append.
Qed.

End heap_properties.

(** *** The heap order *)

Section heap_order.
Context {A : Type} (comp : A → A → bool) (good : A → Prop).
Hypothesis comp_asym : ∀ x y, comp x y = true → comp y x = false.
Hypothesis comp_negtrans :
  ∀ x y z, good y → comp x y = false → comp y z = false → comp x z = false.

Lemma parent_child i : 0 < i → i = 2 * parent i + 1 ∨ i = 2 * parent i + 2.
Proof.
  intros Hi. unfold parent.
  pose proof (Nat.div_mod_eq (i - 1) 2) as Hdiv.
  pose proof (Nat.mod_upper_bound (i - 1) 2) as Hmod.
  lia.
Qed.

Lemma comp_at_true (v : list A) i j :
  comp_at comp v i j = true →
  ∃ x y, v !! i = Some x ∧ v !! j = Some y ∧ comp x y = true.
Proof.
  unfold comp_at. destruct (v !! i), (v !! j); try done. eauto.
Qed.

Lemma comp_at_lt (v : list A) i j :
  comp_at comp v i j = true → i < length v ∧ j < length v.
Proof.
  intros (x & y & Hx & Hy & _)%comp_at_true.
  split; by eapply lookup_lt_Some.
Qed.

Lemma comp_at_ge_r (v : list A) i j :
  length v ≤ j → comp_at comp v i j = false.
Proof.
  intros Hj. unfold comp_at. rewrite (lookup_ge_None_2 v j) by done.
  by destruct (v !! i).
Qed.

Lemma comp_at_ge_l (v : list A) i j :
  length v ≤ i → comp_at comp v i j = false.
Proof.
  intros Hi. unfold comp_at. by rewrite (lookup_ge_None_2 v i).
Qed.

Lemma comp_at_asym (v : list A) i j :
  comp_at comp v i j = true → comp_at comp v j i = false.
Proof.
  intros (x & y & Hx & Hy & Hc)%comp_at_true.
  unfold comp_at. rewrite Hx, Hy. by apply comp_asym.
Qed.

Lemma comp_at_negtrans (v : list A) i j k :
  Forall good v → j < length v →
  comp_at comp v i j = false → comp_at comp v j k = false →
  comp_at comp v i k = false.
Proof.
  intros Hgood Hj. unfold comp_at.
  destruct (lookup_lt_is_Some_2 v j Hj) as [y Hy]. rewrite Hy.
  destruct (v !! i) as [x|]; [|done].
  destruct (v !! k) as [z|]; [|done].
  apply comp_negtrans. eapply Forall_lookup_1; eauto.
Qed.

Lemma comp_at_trans (v : list A) i j k :
  Forall good v →
  comp_at comp v i j = true → comp_at comp v j k = true →
  comp_at comp v i k = true.
Proof.
  intros Hgood Hij Hjk.
  destruct (comp_at comp v i k) eqn:Hik; [done|].
  pose proof (comp_at_lt _ _ _ Hjk) as [_ Hk].
  rewrite <-Hij. symmetry.
  eapply (comp_at_negtrans v i k j); try done.
  by apply comp_at_asym.
Qed.

Lemma comp_at_swap (v : list A) i j a b :
  i < length v → j < length v →
  comp_at comp (swap v i j) a b
  = comp_at comp v (swap_index i j a) (swap_index i j b).
Proof.
  intros Hi Hj. unfold comp_at, swap_index.
  rewrite !lookup_swap by done.
  by repeat case_decide.
Qed.

Lemma swap_index_l i j : swap_index i j i = j.
Proof. unfold swap_index. by rewrite decide_True. Qed.

Lemma swap_index_r i j : swap_index i j j = i.
Proof. unfold swap_index. case_decide; [done|]. by rewrite decide_True. Qed.

Lemma swap_index_ne i j k : k ≠ i → k ≠ j → swap_index i j k = k.
Proof. intros ??. unfold swap_index. by rewrite !decide_False. Qed.

Lemma comp_at_app_l (v w : list A) i j :
  i < length v → j < length v →
  comp_at comp (v ++ w) i j = comp_at comp v i j.
Proof.
  intros Hi Hj. unfold comp_at. by rewrite !lookup_app_l.
Qed.

Lemma Forall_good_swap (v : list A) i j :
  Forall good v → Forall good (swap v i j).
Proof. intros Hg. by rewrite swap_Permutation. Qed.

(** [sift_up] completes a heap that is in order but above [i]. *)
Lemma sift_up_is_heap fuel (v : list A) i :
  Forall good v → i < fuel → heap_but_above comp v i →
  is_heap comp (sift_up comp fuel v i).
Proof.
  revert v i. induction fuel as [|fuel IH]; intros v i Hgood Hfuel [Hup Hgr];
    [lia|].
  simpl. case_bool_decide as Hi.
  { intros p c Hc. apply Hup; [done|lia]. }
  pose proof (parent_child i ltac:(lia)) as Hpar.
  destruct (comp_at comp v (parent i) i) eqn:Hcmp.
  2:{ intros p c Hc. destruct (decide (c = i)) as [->|Hne].
      - by replace p with (parent i) by lia.
      - by apply Hup. }
  pose proof (comp_at_lt _ _ _ Hcmp) as [Hlp Hli].
  apply IH; [by apply Forall_good_swap|lia|].
  set (q := parent i) in *.
  split.
  - intros p c Hc Hcq. rewrite comp_at_swap by done.
    destruct (decide (c = i)) as [->|Hci].
    + replace p with q by lia.
      rewrite swap_index_l, swap_index_r. by apply comp_at_asym.
    + rewrite (swap_index_ne q i c) by done.
      destruct (decide (p = q)) as [->|Hpq].
      * rewrite swap_index_l.
        apply (comp_at_negtrans v i q c); try done.
        -- by apply comp_at_asym.
        -- by apply Hup.
      * destruct (decide (p = i)) as [->|Hpi].
        -- rewrite swap_index_r. by apply Hgr.
        -- rewrite swap_index_ne by done. by apply Hup.
  - intros g c Hg Hc. rewrite comp_at_swap by done.
    rewrite (swap_index_ne q i g) by lia.
    destruct (decide (c = i)) as [->|Hci].
    + rewrite swap_index_r. apply Hup; [done|lia].
    + rewrite swap_index_ne by lia.
      apply (comp_at_negtrans v g q c); try done.
      * apply Hup; [done|lia].
      * by apply Hup.
Qed.

(** [push_heap]: with the elements before the last a heap, the result is
    a heap. *)
Lemma push_heap_is_heap (v : list A) x :
  Forall good (v ++ [x]) → is_heap comp v →
  is_heap comp (push_heap comp (v ++ [x])).
Proof.
  intros Hgood Hheap. unfold push_heap. rewrite length_app. simpl.
  apply sift_up_is_heap; [done|lia|].
  replace (length v + 1 - 1) with (length v) by lia.
  split.
  - intros p c Hc Hne.
    destruct (decide (c < length v)) as [Hlt|Hge].
    + rewrite comp_at_app_l by lia. by apply Hheap.
    + apply comp_at_ge_r. rewrite length_app. simpl. lia.
  - intros g c Hg Hc. apply comp_at_ge_r. rewrite length_app. simpl. lia.
Qed.

Lemma comp_at_take (v : list A) k i j :
  i < k → j < k → comp_at comp (take k v) i j = comp_at comp v i j.
Proof.
  intros Hi Hj. unfold comp_at. by rewrite !lookup_take_lt.
Qed.

(** Moving the larger child [m] of [i] up keeps the invariant of
    [sift_down], now at [m]. *)
Lemma heap_but_below_swap lo (v : list A) i m o :
  Forall good v →
  m = 2 * i + 1 ∨ m = 2 * i + 2 →
  o = 2 * i + 1 ∨ o = 2 * i + 2 →
  m ≠ o →
  comp_at comp v i m = true →
  comp_at comp v m o = false →
  heap_but_below comp lo v i →
  heap_but_below comp lo (swap v i m) m.
Proof.
  intros Hgood Hm Ho Hmo Him Hmo' [Hdown Hgr].
  pose proof (comp_at_lt _ _ _ Him) as [Hli Hlm].
  split.
  - intros p c Hc Hlo Hpm. rewrite comp_at_swap by done.
    destruct (decide (p = i)) as [->|Hpi].
    + rewrite swap_index_l.
      destruct (decide (c = m)) as [->|Hcm].
      * rewrite swap_index_r. by apply comp_at_asym.
      * replace c with o by lia. by rewrite swap_index_ne by lia.
    + rewrite (swap_index_ne i m p) by done.
      destruct (decide (c = i)) as [->|Hci].
      * rewrite swap_index_l. by apply Hgr.
      * rewrite swap_index_ne by lia. by apply Hdown.
  - intros g c Hg Hlo Hc. rewrite comp_at_swap by done.
    replace g with i by lia.
    rewrite swap_index_l, swap_index_ne by lia.
    apply Hdown; [done|lia|lia].
Qed.

Lemma sift_down_step fuel (v : list A) i :
  sift_down comp (S fuel) v i
  = let largest :=
      if comp_at comp v (if comp_at comp v i (2 * i + 1)
                         then 2 * i + 1 else i)
           (2 * i + 2)
      then 2 * i + 2
      else if comp_at comp v i (2 * i + 1) then 2 * i + 1 else i in
    if bool_decide (largest = i) then v
    else sift_down comp fuel (swap v i largest) largest.
Proof. reflexivity. Qed.

(** [sift_down] completes, from [lo] on, a heap that is in order from
    [lo] on but below [i]. *)
Lemma sift_down_heap_from fuel lo (v : list A) i :
  Forall good v → length v ≤ i + fuel → lo ≤ i →
  heap_but_below comp lo v i →
  heap_from comp lo (sift_down comp fuel v i).
Proof.
  revert v i.
  induction fuel as [|fuel IH]; intros v i Hgood Hfuel Hlo Hinv.
  { simpl. intros p c Hc Hp. destruct (decide (p = i)) as [->|Hpi].
    - apply comp_at_ge_l. lia.
    - by apply (proj1 Hinv). }
  rewrite sift_down_step. cbv zeta.
  destruct (comp_at comp v i (2 * i + 1)) eqn:Hl.
  - destruct (comp_at comp v (2 * i + 1) (2 * i + 2)) eqn:Hr.
    + rewrite bool_decide_eq_false_2 by lia.
      apply IH; [by apply Forall_good_swap|rewrite length_swap; lia|lia|].
      apply (heap_but_below_swap lo v i (2 * i + 2) (2 * i + 1));
        try done; try lia.
      * by apply (comp_at_trans v i (2 * i + 1) (2 * i + 2)).
      * by apply comp_at_asym.
    + rewrite bool_decide_eq_false_2 by lia.
      apply IH; [by apply Forall_good_swap|rewrite length_swap; lia|lia|].
      apply (heap_but_below_swap lo v i (2 * i + 1) (2 * i + 2));
        try done; lia.
  - destruct (comp_at comp v i (2 * i + 2)) eqn:Hr.
    + rewrite bool_decide_eq_false_2 by lia.
      apply IH; [by apply Forall_good_swap|rewrite length_swap; lia|lia|].
      pose proof (comp_at_lt _ _ _ Hr) as [Hli _].
      apply (heap_but_below_swap lo v i (2 * i + 2) (2 * i + 1));
        try done; try lia.
      apply (comp_at_negtrans v (2 * i + 2) i (2 * i + 1)); try done.
      by apply comp_at_asym.
    + rewrite bool_decide_eq_true_2 by done.
      intros p c Hc Hp. destruct (decide (p = i)) as [->|Hpi].
      * by destruct Hc as [-> | ->].
      * by apply (proj1 Hinv).
Qed.

Lemma heapify_is_heap k (v : list A) :
  Forall good v → heap_from comp k v → is_heap comp (heapify comp k v).
Proof.
  revert v. induction k as [|k IH]; intros v Hgood Hfrom; simpl.
  { intros p c Hc. apply Hfrom; [done|lia]. }
  apply IH; [by rewrite sift_down_Permutation|].
  apply sift_down_heap_from; [done|lia|lia|].
  split.
  - intros p c Hc Hp Hne. apply Hfrom; [done|lia].
  - intros g c Hg Hlo Hc. lia.
Qed.

(** [make_heap] makes a heap of any sequence. *)
Lemma make_heap_is_heap (v : list A) :
  Forall good v → is_heap comp (make_heap comp v).
Proof.
  intros Hgood. apply heapify_is_heap; [done|].
  intros p c Hc Hp. apply comp_at_ge_r.
  pose proof (Nat.div_mod_eq (length v) 2) as Hdiv.
  pose proof (Nat.mod_upper_bound (length v) 2) as Hmod.
  lia.
Qed.

(** [pop_heap] on a heap: the root goes last, and the elements before it
    are a heap of the other elements. *)
Lemma pop_heap_spec (v : list A) root others :
  v = root :: others → Forall good v → is_heap comp v →
  ∃ rest,
    pop_heap comp v = rest ++ [root]
    ∧ is_heap comp rest
    ∧ rest ≡ₚ others.
Proof.
  intros -> Hgood Hheap.
  pose proof (pop_heap_Permutation comp (root :: others)) as Hperm.
  unfold pop_heap in *. simpl length in *.
  replace (S (length others) - 1) with (length others) in * by lia.
  set (w := swap (root :: others) 0 (length others)) in *.
  assert (length w = S (length others)) as Hlw
    by (unfold w; by rewrite length_swap).
  assert (drop (length others) w = [root]) as Hdrop.
  { assert (w !! length others = Some root) as Hlast.
    { unfold w. rewrite lookup_swap by (simpl; lia).
      case_decide as Hz; [by rewrite Hz|]. by rewrite decide_True. }
    rewrite (drop_S _ _ _ Hlast). by rewrite drop_ge by lia. }
  rewrite Hdrop in *.
  eexists. split; [done|]. split.
  - intros p c Hc.
    apply (sift_down_heap_from _ 0); try done; try lia.
    + apply Forall_take. by apply Forall_good_swap.
    + rewrite length_take. lia.
    + split; [|lia].
      intros p' c' Hc' _ Hp'.
      destruct (decide (c' < length others)) as [Hlt|Hge].
      * rewrite comp_at_take by lia. unfold w.
        rewrite comp_at_swap by (simpl; lia).
        rewrite !swap_index_ne by lia. by apply Hheap.
      * apply comp_at_ge_r. rewrite length_take. lia.
  - apply (Permutation_app_inv_r [root]).
    rewrite Hperm. by rewrite Permutation_cons_append.
Qed.

End heap_order.

(** ** The comparator as the order of the heap *)

Lemma lower_priority_asym tp a b :
  lower_priority tp a b = true → lower_priority tp b a = false.
Proof. rewrite !lower_priority_key. apply key_lower_asym. Qed.

Lemma lower_priority_trans tp a b c :
  lower_priority tp a b = true → lower_priority tp b c = true →
  lower_priority tp a c = true.
Proof. rewrite !lower_priority_key. apply key_lower_trans. Qed.

(** On pairs with numeric tiles "not lower" is transitive, which makes the
    comparator a strict weak order there. *)
Lemma lower_priority_negtrans tp a b c :
  numeric_pair b →
  lower_priority tp a b = false → lower_priority tp b c = false →
  lower_priority tp a c = false.
Proof.
  intros Hb. rewrite !lower_priority_key. apply key_lower_negtrans.
  intros tb. by apply numeric_next_tile.
Qed.

(** ** Tiles only leave a pair *)

Lemma numeric_pair_pop_queue q tree :
  numeric_pair q → numeric_pair (PairedTilingSetQueue.pop_queue q tree).
Proof.
  destruct q as [[[|ta la]|] [[|tb lb]|] both ret], tree;
    unfold numeric_pair; simpl; intros [Ha Hp]; split; try done;
    by eapply Forall_cons_1.
Qed.

Lemma numeric_pair_skip_loop fuel q tp q' :
  PairedTilingSetQueue.skip_loop fuel q tp = Some q' →
  numeric_pair q → numeric_pair q'.
Proof.
  revert q. induction fuel as [|fuel IH]; intros q; simpl.
  - destruct (PairedTilingSetQueue.IsEmpty q); [|done]. by intros [= <-].
  - destruct (PairedTilingSetQueue.IsEmpty q); [by intros [= <-]|].
    destruct (PairedTilingSetQueue.NextTileIteratorTree q tp) as [tree|];
      [|done]. simpl.
    destruct (Top_ptr (PairedTilingSetQueue.queue_of q tree)) as [tile|];
      [|done]. simpl.
    destruct (negb (is_shared tile)); [by intros [= <-]|].
    destruct (HigherPriorityTree tp None None (Some tile)) as [owner|];
      [|done]. simpl.
    destruct (bool_decide (tree = owner)); [by intros [= <-]|].
    intros Hs Hn. eapply IH; [done|]. by apply numeric_pair_pop_queue.
Qed.

Lemma numeric_pair_Pop q tp q' :
  PairedTilingSetQueue.Pop q tp = Some q' →
  numeric_pair q → numeric_pair q'.
Proof.
  unfold PairedTilingSetQueue.Pop.
  destruct (PairedTilingSetQueue.IsEmpty q); [done|].
  destruct (PairedTilingSetQueue.NextTileIteratorTree q tp) as [tree|];
    [|done]. simpl.
  destruct (Top_ptr (PairedTilingSetQueue.queue_of q tree)) as [tile|];
    [|done]. simpl.
  destruct (bool_decide (tile ∈ _)); [done|].
  intros Hpop Hn.
  assert (numeric_pair
            (PairedTilingSetQueue.pop_queue
               (PairedTilingSetQueue.mk
                  (PairedTilingSetQueue.active_queue q)
                  (PairedTilingSetQueue.pending_queue q)
                  (PairedTilingSetQueue.has_both_layers q)
                  ({[tile]} ∪ PairedTilingSetQueue.returned_tiles_for_debug q))
               tree)) as Hpopped.
  { apply numeric_pair_pop_queue. by destruct q. }
  destruct (PairedTilingSetQueue.has_both_layers _).
  - destruct (PairedTilingSetQueue.SkipTilesReturnedByTwin _ tp)
      as [skipped|] eqn:Hskip; [|done].
    simpl in Hpop.
    assert (numeric_pair skipped) as Hsk
      by (by eapply numeric_pair_skip_loop).
    destruct (PairedTilingSetQueue.IsEmpty skipped).
    + by injection Hpop as <-.
    + destruct (PairedTilingSetQueue.Top skipped tp); [|done].
      by injection Hpop as <-.
  - simpl in Hpop.
    destruct (PairedTilingSetQueue.IsEmpty _).
    + by injection Hpop as <-.
    + destruct (PairedTilingSetQueue.Top _ tp); [|done].
      by injection Hpop as <-.
Qed.

Lemma numeric_pair_new layer_pair tp q :
  PairedTilingSetQueue.new layer_pair tp = Some q →
  numeric_layers tp layer_pair → numeric_pair q.
Proof.
  unfold PairedTilingSetQueue.new. intros Hnew [Ha Hp].
  set (raw := PairedTilingSetQueue.mk _ _ _ _) in Hnew.
  assert (numeric_pair raw) as Hraw.
  { unfold numeric_pair, raw, created_queue in *. by simpl. }
  destruct (PairedTilingSetQueue.has_both_layers raw).
  - by eapply numeric_pair_skip_loop.
  - by injection Hnew as <-.
Qed.

(** ** [Build] and [Pop] of the queue *)

(** [Build] constructs a pair for every layer pair. *)
Lemma mapM_new_total tp paired_layers :
  ∃ pushed,
    mapM (λ it, PairedTilingSetQueue.new it tp) paired_layers = Some pushed.
Proof.
  induction paired_layers as [|it rest [pushed IH]]; [by exists []|].
  destruct (new_spec it tp) as (q & Hq & _).
  exists (q :: pushed). apply mapM_Some. constructor; [done|].
  by apply mapM_Some.
Qed.

Lemma Build_numeric_heap self paired_layers tp :
  numeric_pairs self → Forall (numeric_layers tp) paired_layers →
  ∃ self',
    RasterTilePriorityQueue.Build self paired_layers tp = Some self'
    ∧ heap_ok self' ∧ numeric_pairs self'.
Proof.
  intros Hself Hlayers. unfold RasterTilePriorityQueue.Build.
  destruct (mapM_new_total tp paired_layers) as [pushed Hpushed].
  rewrite Hpushed. simpl. eexists. split; [done|].
  assert (Forall numeric_pair
            (RasterTilePriorityQueue.paired_queues_ self ++ pushed)) as Hall.
  { apply Forall_app. split; [done|].
    apply mapM_Some in Hpushed.
    induction Hpushed as [|it q its qs Hq _ IH]; [done|].
    apply Forall_cons in Hlayers as [Hit Hits].
    constructor; [by eapply numeric_pair_new|by apply IH]. }
  unfold heap_ok, numeric_pairs. simpl. split.
  - apply (make_heap_is_heap _ numeric_pair); try done.
    + apply lower_priority_asym.
    + apply lower_priority_negtrans.
  - by rewrite make_heap_Permutation.
Qed.

(** [Pop] takes the root out of the heap, pops it, and puts it back. *)
Lemma Pop_numeric_heap self self' :
  numeric_pairs self → heap_ok self →
  RasterTilePriorityQueue.Pop self = Some self' →
  ∃ root others rest root',
    RasterTilePriorityQueue.paired_queues_ self = root :: others
    ∧ pop_heap (lower_priority (RasterTilePriorityQueue.tree_priority_ self))
               (RasterTilePriorityQueue.paired_queues_ self)
      = rest ++ [root]
    ∧ is_heap (lower_priority (RasterTilePriorityQueue.tree_priority_ self))
              rest
    ∧ rest ≡ₚ others
    ∧ PairedTilingSetQueue.Pop root
        (RasterTilePriorityQueue.tree_priority_ self) = Some root'
    ∧ self'
      = RasterTilePriorityQueue.mk
          (push_heap
             (lower_priority (RasterTilePriorityQueue.tree_priority_ self))
             (rest ++ [root']))
          (RasterTilePriorityQueue.tree_priority_ self)
    ∧ heap_ok self' ∧ numeric_pairs self'.
Proof.
  destruct self as [v tp]. unfold numeric_pairs, heap_ok,
    RasterTilePriorityQueue.Pop, RasterTilePriorityQueue.IsEmpty. simpl.
  intros Hnum Hheap.
  destruct v as [|root others]; [done|].
  destruct (PairedTilingSetQueue.IsEmpty root); [done|].
  destruct (pop_heap_spec (lower_priority tp) numeric_pair
              (lower_priority_asym tp) (lower_priority_negtrans tp)
              (root :: others) root others eq_refl Hnum Hheap)
    as (rest & Hpop & Hrest & Hperm).
  rewrite Hpop, last_snoc. simpl.
  destruct (PairedTilingSetQueue.Pop root tp) as [root'|] eqn:Hroot; [|done].
  simpl. intros [= <-].
  assert (<[length (rest ++ [root]) - 1 := root']> (rest ++ [root])
          = rest ++ [root']) as ->.
  { rewrite length_app. simpl.
    replace (length rest + 1 - 1) with (length rest + 0) by lia.
    by rewrite insert_app_r. }
  assert (Forall numeric_pair (rest ++ [root'])) as Hnum'.
  { apply Forall_cons in Hnum as [Hr Ho].
    apply Forall_app. split; [by rewrite Hperm|].
    constructor; [by eapply numeric_pair_Pop|done]. }
  exists root, others, rest, root'. repeat split; try done.
  - apply (push_heap_is_heap _ numeric_pair); try done.
    + apply lower_priority_asym.
    + apply lower_priority_negtrans.
  - simpl. by rewrite push_heap_Permutation.
Qed.

(** On the pairs constructed under the iterator contract no debug check
    fails. *)
Lemma Build_ready self paired_layers tp :
  RasterTilePriorityQueue.paired_queues_ self = [] →
  Forall (iterator_contract tp) paired_layers →
  ∃ self',
    RasterTilePriorityQueue.Build self paired_layers tp = Some self'
    ∧ ready_pairs self'.
Proof.
  intros Hempty Hlayers. unfold RasterTilePriorityQueue.Build.
  destruct (mapM_new_total tp paired_layers) as [pushed Hpushed].
  rewrite Hpushed, Hempty. simpl. eexists. split; [done|].
  unfold ready_pairs. simpl. rewrite make_heap_Permutation.
  apply mapM_Some in Hpushed.
  induction Hpushed as [|it q its qs Hq _ IH]; [done|].
  apply Forall_cons in Hlayers as [Hit Hits].
  constructor; [|by apply IH].
  destruct (new_ready it tp Hit) as (q' & Hq' & Hready). congruence.
Qed.

Lemma Pop_ready_pairs self :
  ready_pairs self → RasterTilePriorityQueue.IsEmpty self = false →
  ∃ self', RasterTilePriorityQueue.Pop self = Some self' ∧ ready_pairs self'.
Proof.
  destruct self as [v tp]. unfold ready_pairs,
    RasterTilePriorityQueue.Pop, RasterTilePriorityQueue.IsEmpty. simpl.
  intros Hready Hne.
  destruct v as [|root others]; [done|]. rewrite Hne.
  destruct (pop_heap_shape (lower_priority tp) (root :: others) root others
              eq_refl) as (rest & -> & Hperm).
  rewrite last_snoc. simpl.
  apply Forall_cons in Hready as [Hroot Hothers].
  destruct (Pop_ready tp root Hroot Hne) as (root' & -> & Hroot').
  simpl. eexists. split; [done|]. simpl.
  rewrite push_heap_Permutation, length_app. simpl.
  replace (length rest + 1 - 1) with (length rest + 0) by lia.
  rewrite insert_app_r. simpl.
  apply Forall_app. split; [by rewrite Hperm|by constructor].
Qed.

(** * The properties the specification states *)

(** ** The comparator *)

(** C1, as the code has it. Under SMOOTHNESS_TAKES_PRIORITY, when the
    policy priorities of the two selected tiles both have bin EVENTUALLY:
    if exactly one tile's pending bin is NOW, that tile compares strictly
    higher; if both are NOW the comparator returns false in both directions
    (the two are equivalent, whatever their resolutions and distances); if
    neither is NOW the result is that of the resolution rule and the
    [IsHigherPriorityThan] fallback. *)
Theorem pending_now_override a b ta tb :
  next_tile a SMOOTHNESS_TAKES_PRIORITY = Some ta →
  next_tile b SMOOTHNESS_TAKES_PRIORITY = Some tb →
  priority_bin (priority_for_tree_priority ta SMOOTHNESS_TAKES_PRIORITY)
    = EVENTUALLY →
  priority_bin (priority_for_tree_priority tb SMOOTHNESS_TAKES_PRIORITY)
    = EVENTUALLY →
  (is_pending_now ta = false → is_pending_now tb = true →
   RasterOrderComparator SMOOTHNESS_TAKES_PRIORITY a b = Some true
   ∧ RasterOrderComparator SMOOTHNESS_TAKES_PRIORITY b a = Some false)
  ∧ (is_pending_now ta = true → is_pending_now tb = true →
     RasterOrderComparator SMOOTHNESS_TAKES_PRIORITY a b = Some false
     ∧ RasterOrderComparator SMOOTHNESS_TAKES_PRIORITY b a = Some false)
  ∧ (is_pending_now ta = false → is_pending_now tb = false →
     RasterOrderComparator SMOOTHNESS_TAKES_PRIORITY a b
     = Some (resolution_then_fallback SMOOTHNESS_TAKES_PRIORITY
               (priority_for_tree_priority ta SMOOTHNESS_TAKES_PRIORITY)
               (priority_for_tree_priority tb SMOOTHNESS_TAKES_PRIORITY))).
Proof.
  intros Ha Hb Hea Heb.
  rewrite !RasterOrderComparator_key, Ha, Hb. simpl.
  unfold tile_lower. rewrite Hea, Heb. simpl.
  split; [|split]; intros -> ->; done.
Qed.

Lemma pending_now_override_example :
  RasterOrderComparator SMOOTHNESS_TAKES_PRIORITY
    (active_only [tile_near_eventually]) (active_only [tile_far_pending_now])
  = Some true
  ∧ RasterOrderComparator SMOOTHNESS_TAKES_PRIORITY
      (active_only [tile_far_pending_now]) (active_only [tile_near_eventually])
    = Some false.
Proof.
  by apply (pending_now_override
              (active_only [tile_near_eventually])
              (active_only [tile_far_pending_now])
              tile_near_eventually tile_far_pending_now).
Defined.

(** C1 as stated fails when both pending bins are NOW: the far tile is not
    ranked below the near one, although the resolution rule and the
    fallback, had the comparison fallen through to them, would rank it
    below. *)
Lemma both_pending_now_no_fall_through :
  next_tile (active_only [tile_far_pending_now]) SMOOTHNESS_TAKES_PRIORITY
  = Some tile_far_pending_now
  ∧ next_tile (active_only [tile_near_pending_now]) SMOOTHNESS_TAKES_PRIORITY
    = Some tile_near_pending_now
  ∧ priority_bin (priority_for_tree_priority tile_far_pending_now
                    SMOOTHNESS_TAKES_PRIORITY) = EVENTUALLY
  ∧ priority_bin (priority_for_tree_priority tile_near_pending_now
                    SMOOTHNESS_TAKES_PRIORITY) = EVENTUALLY
  ∧ is_pending_now tile_far_pending_now = true
  ∧ is_pending_now tile_near_pending_now = true
  ∧ resolution_then_fallback SMOOTHNESS_TAKES_PRIORITY
      (priority_for_tree_priority tile_far_pending_now
         SMOOTHNESS_TAKES_PRIORITY)
      (priority_for_tree_priority tile_near_pending_now
         SMOOTHNESS_TAKES_PRIORITY) = true
  ∧ RasterOrderComparator SMOOTHNESS_TAKES_PRIORITY
      (active_only [tile_far_pending_now])
      (active_only [tile_near_pending_now]) = Some false
  ∧ RasterOrderComparator SMOOTHNESS_TAKES_PRIORITY
      (active_only [tile_near_pending_now])
      (active_only [tile_far_pending_now]) = Some false.
Proof. repeat split; vm_compute; reflexivity. Qed.

(** C4, as the code has it. On two non-empty pairs whose selected policy
    priorities have equal bin and different resolution, unless the
    pending-NOW check decides first (policy SMOOTHNESS_TAKES_PRIORITY, bin
    EVENTUALLY and the pending bin of one of the two tiles NOW): a tile of
    NON_IDEAL_RESOLUTION compares strictly lower than the other; of a
    LOW_RESOLUTION and a HIGH_RESOLUTION tile the low one compares higher
    under SMOOTHNESS_TAKES_PRIORITY and the high one under the other
    policies. The distances are arbitrary. *)
Theorem resolution_rule tp a b ta tb :
  next_tile a tp = Some ta →
  next_tile b tp = Some tb →
  priority_bin (priority_for_tree_priority ta tp)
    = priority_bin (priority_for_tree_priority tb tp) →
  pending_now_class tp ta = false →
  pending_now_class tp tb = false →
  let ra := resolution (priority_for_tree_priority ta tp) in
  let rb := resolution (priority_for_tree_priority tb tp) in
  (ra = NON_IDEAL_RESOLUTION → rb ≠ NON_IDEAL_RESOLUTION →
   RasterOrderComparator tp a b = Some true
   ∧ RasterOrderComparator tp b a = Some false)
  ∧ (tp = SMOOTHNESS_TAKES_PRIORITY →
     ra = HIGH_RESOLUTION → rb = LOW_RESOLUTION →
     RasterOrderComparator tp a b = Some true
     ∧ RasterOrderComparator tp b a = Some false)
  ∧ (tp ≠ SMOOTHNESS_TAKES_PRIORITY →
     ra = LOW_RESOLUTION → rb = HIGH_RESOLUTION →
     RasterOrderComparator tp a b = Some true
     ∧ RasterOrderComparator tp b a = Some false).
Proof.
  intros Ha Hb Hbin Hca Hcb ra rb.
  rewrite !RasterOrderComparator_key, Ha, Hb. simpl.
  rewrite !tile_lower_rank. unfold rank_lower, class_rank, resolution_rank.
  rewrite Hca, Hcb, Hbin. subst ra rb.
  rewrite !Nat.ltb_irrefl, !Nat.eqb_refl. simpl.
  split; [|split].
  - intros -> Hne.
    by destruct (resolution (priority_for_tree_priority tb tp)), tp.
  - intros -> -> ->. done.
  - intros Hne -> ->. by destruct tp.
Qed.

Lemma resolution_rule_example :
  RasterOrderComparator SMOOTHNESS_TAKES_PRIORITY
    (active_only [tile_soon_high]) (active_only [tile_soon_low]) = Some true
  ∧ RasterOrderComparator SMOOTHNESS_TAKES_PRIORITY
      (active_only [tile_soon_low]) (active_only [tile_soon_high])
    = Some false.
Proof.
  refine (proj1 (proj2 (resolution_rule SMOOTHNESS_TAKES_PRIORITY
              (active_only [tile_soon_high]) (active_only [tile_soon_low])
              tile_soon_high tile_soon_low _ _ _ _ _)) _ _ _);
    reflexivity.
Defined.

(** C4 as stated fails under SMOOTHNESS_TAKES_PRIORITY in the EVENTUALLY
    bin: a NON_IDEAL_RESOLUTION tile that the pending tree needs NOW
    compares strictly higher than a HIGH_RESOLUTION tile of the same bin. *)
Lemma non_ideal_pending_now_wins :
  next_tile (active_only [tile_non_ideal_pending_now])
    SMOOTHNESS_TAKES_PRIORITY = Some tile_non_ideal_pending_now
  ∧ next_tile (active_only [tile_near_eventually]) SMOOTHNESS_TAKES_PRIORITY
    = Some tile_near_eventually
  ∧ priority_bin (priority_for_tree_priority tile_non_ideal_pending_now
                    SMOOTHNESS_TAKES_PRIORITY)
    = priority_bin (priority_for_tree_priority tile_near_eventually
                      SMOOTHNESS_TAKES_PRIORITY)
  ∧ resolution (priority_for_tree_priority tile_non_ideal_pending_now
                  SMOOTHNESS_TAKES_PRIORITY) = NON_IDEAL_RESOLUTION
  ∧ resolution (priority_for_tree_priority tile_near_eventually
                  SMOOTHNESS_TAKES_PRIORITY) = HIGH_RESOLUTION
  ∧ RasterOrderComparator SMOOTHNESS_TAKES_PRIORITY
      (active_only [tile_non_ideal_pending_now])
      (active_only [tile_near_eventually]) = Some false
  ∧ RasterOrderComparator SMOOTHNESS_TAKES_PRIORITY
      (active_only [tile_near_eventually])
      (active_only [tile_non_ideal_pending_now]) = Some true.
Proof. repeat split; vm_compute; reflexivity. Qed.

(** C5. If exactly one of two pairs is empty, the comparator ranks the
    empty one strictly lower; if both are empty it returns false in both
    directions. *)
Theorem empty_pair_is_lowest tp a b :
  (PairedTilingSetQueue.IsEmpty a = true →
   PairedTilingSetQueue.IsEmpty b = false →
   RasterOrderComparator tp a b = Some true
   ∧ RasterOrderComparator tp b a = Some false)
  ∧ (PairedTilingSetQueue.IsEmpty a = true →
     PairedTilingSetQueue.IsEmpty b = true →
     RasterOrderComparator tp a b = Some false
     ∧ RasterOrderComparator tp b a = Some false).
Proof.
  unfold RasterOrderComparator.
  split; intros -> ->; done.
Qed.

Lemma empty_pair_is_lowest_example :
  RasterOrderComparator NEW_CONTENT_TAKES_PRIORITY
    (active_only []) (active_only [tile_soon_non_ideal]) = Some true
  ∧ RasterOrderComparator NEW_CONTENT_TAKES_PRIORITY
      (active_only [tile_soon_non_ideal]) (active_only []) = Some false.
Proof.
  by apply (empty_pair_is_lowest NEW_CONTENT_TAKES_PRIORITY
              (active_only []) (active_only [tile_soon_non_ideal])).
Defined.


(** With a distance that is not a number, being incomparable is not
    transitive: the NaN tile is incomparable with a nearer and with a
    farther tile of its bin and resolution, which are ordered. *)
Lemma incomparable_not_transitive_with_nan :
  RasterOrderComparator SAME_PRIORITY_FOR_BOTH_TREES
    (active_only [tile_soon_far]) (active_only [tile_soon_nan]) = Some false
  ∧ RasterOrderComparator SAME_PRIORITY_FOR_BOTH_TREES
      (active_only [tile_soon_nan]) (active_only [tile_soon_far]) = Some false
  ∧ RasterOrderComparator SAME_PRIORITY_FOR_BOTH_TREES
      (active_only [tile_soon_nan]) (active_only [tile_soon_high])
    = Some false
  ∧ RasterOrderComparator SAME_PRIORITY_FOR_BOTH_TREES
      (active_only [tile_soon_high]) (active_only [tile_soon_nan])
    = Some false
  ∧ RasterOrderComparator SAME_PRIORITY_FOR_BOTH_TREES
      (active_only [tile_soon_far]) (active_only [tile_soon_high])
    = Some true.
Proof. repeat split; vm_compute; reflexivity. Qed.


(** ** The tree arbiter *)

(** C3. [HigherPriorityTree] implements the policy table: PENDING_TREE for
    every input under NEW_CONTENT_TAKES_PRIORITY; under
    SAME_PRIORITY_FOR_BOTH_TREES, ACTIVE_TREE iff the active priority is
    strictly higher than the pending priority, PENDING_TREE otherwise;
    under SMOOTHNESS_TAKES_PRIORITY, PENDING_TREE exactly when the active
    bin is EVENTUALLY and the pending bin is NOW, ACTIVE_TREE otherwise.
    The active priority is [priority(ACTIVE_TREE)] of the shared tile when
    one is supplied and of the active iterator's top otherwise; likewise
    the pending priority. *)
Theorem HigherPriorityTree_policy_table :
  (∀ aq pq shared,
     HigherPriorityTree NEW_CONTENT_TAKES_PRIORITY aq pq shared
     = Some PENDING_TREE)
  ∧ (∀ aq pq shared,
       HigherPriorityTree SAME_PRIORITY_FOR_BOTH_TREES aq pq (Some shared)
       = Some (if IsHigherPriorityThan (priority shared ACTIVE_TREE)
                    (priority shared PENDING_TREE)
               then ACTIVE_TREE else PENDING_TREE))
  ∧ (∀ atop arest ptop prest,
       HigherPriorityTree SAME_PRIORITY_FOR_BOTH_TREES
         (Some (atop :: arest)) (Some (ptop :: prest)) None
       = Some (if IsHigherPriorityThan (priority atop ACTIVE_TREE)
                    (priority ptop PENDING_TREE)
               then ACTIVE_TREE else PENDING_TREE))
  ∧ (∀ aq pq shared,
       HigherPriorityTree SMOOTHNESS_TAKES_PRIORITY aq pq (Some shared)
       = Some (if bool_decide
                    (priority_bin (priority shared ACTIVE_TREE) = EVENTUALLY
                     ∧ priority_bin (priority shared PENDING_TREE) = NOW)
               then PENDING_TREE else ACTIVE_TREE))
  ∧ (∀ atop arest ptop prest,
       HigherPriorityTree SMOOTHNESS_TAKES_PRIORITY
         (Some (atop :: arest)) (Some (ptop :: prest)) None
       = Some (if bool_decide
                    (priority_bin (priority atop ACTIVE_TREE) = EVENTUALLY
                     ∧ priority_bin (priority ptop PENDING_TREE) = NOW)
               then PENDING_TREE else ACTIVE_TREE)).
Proof.
  repeat split; intros; simpl; try done.
  - by destruct (IsHigherPriorityThan _ _).
  - by destruct (IsHigherPriorityThan _ _).
  - rewrite bool_decide_and. by destruct (_ && _).
  - rewrite bool_decide_and. by destruct (_ && _).
Qed.

(** ** Emission of a pair *)

(** C2. Let the two iterators of a layer pair each yield distinct tiles,
    and let every tile both of them yield be shared. Then the pair is
    constructed, an exhaustive sequence of [Pop] calls succeeds, the tiles
    it emits are distinct, and every tile both iterators yield is among
    them (hence emitted exactly once). The emitted tiles are, up to order,
    the tiles each iterator yields that the skip loop accepts on that
    side. *)
Theorem no_tile_emitted_twice layer_pair tp :
  NoDup (created_queue tp (active layer_pair)) →
  NoDup (created_queue tp (pending layer_pair)) →
  (∀ t, t ∈ created_queue tp (active layer_pair) →
        t ∈ created_queue tp (pending layer_pair) → is_shared t = true) →
  ∃ q emitted,
    PairedTilingSetQueue.new layer_pair tp = Some q
    ∧ exhaust q tp = Some emitted
    ∧ NoDup emitted
    ∧ (∀ t, t ∈ created_queue tp (active layer_pair) →
            t ∈ created_queue tp (pending layer_pair) → t ∈ emitted)
    ∧ emitted
      ≡ₚ filter (λ t, accepts tp (PairedTilingSetQueue.has_both_layers q)
                        ACTIVE_TREE t = true)
                (created_queue tp (active layer_pair))
         ++ filter (λ t, accepts tp (PairedTilingSetQueue.has_both_layers q)
                           PENDING_TREE t = true)
                   (created_queue tp (pending layer_pair)).
Proof.
  intros Hna Hnp Hshared.
  destruct (new_ready layer_pair tp) as (q & Hnew & Hset & Hnd & Hfresh);
    [done|].
  destruct (new_spec layer_pair tp) as (q' & Hnew' & _ & Hdue & _).
  rewrite Hnew in Hnew'. injection Hnew' as <-.
  destruct (pop_all_spec tp (PairedTilingSetQueue.tiles_left q) q)
    as (emitted & Hex & Hperm); try done.
  exists q, emitted. repeat split; try done.
  - by rewrite Hperm.
  - intros t Hta Htp. rewrite Hperm, Hdue.
    destruct (HigherPriorityTree_shared_total tp None None t) as [owner Ho].
    apply elem_of_app. destruct owner; [left|right];
      apply list_elem_of_filter; (split; [|done]);
      unfold accepts; rewrite Ho, bool_decide_eq_true_2 by done;
      by rewrite orb_true_r.
  - by rewrite Hperm, Hdue.
Qed.

Lemma no_tile_emitted_twice_example :
  ∃ q emitted,
    PairedTilingSetQueue.new pair_with_shared_tile
      SAME_PRIORITY_FOR_BOTH_TREES = Some q
    ∧ exhaust q SAME_PRIORITY_FOR_BOTH_TREES = Some emitted
    ∧ NoDup emitted
    ∧ tile_shared ∈ emitted.
Proof.
  destruct (no_tile_emitted_twice pair_with_shared_tile
              SAME_PRIORITY_FOR_BOTH_TREES)
    as (q & emitted & Hnew & Hex & Hnd & Hin & _).
  - apply (bool_decide_unpack _). vm_compute. exact I.
  - apply (bool_decide_unpack _). vm_compute. exact I.
  - intros t Ha Hp. simpl in Ha, Hp.
    apply elem_of_cons in Ha as [->|Ha]; [done|].
    apply elem_of_cons in Ha as [->|Ha]; [|by apply elem_of_nil in Ha].
    apply elem_of_cons in Hp as [Hp|Hp]; [done|].
    apply elem_of_cons in Hp as [Hp|Hp]; [done|by apply elem_of_nil in Hp].
  - exists q, emitted. repeat split; try done.
    apply Hin; simpl; left.
Defined.

(** C10. A pair built from one layer alone has [has_both_layers] false,
    so neither its construction nor its [Pop] runs the skip loop: an
    exhaustive sequence of [Pop] calls emits the tiles its iterator yields,
    shared or not, in the iterator's order (the iterator yielding distinct
    tiles, as the debug check of [Pop] demands). *)
Theorem one_layer_pair_emits_iterator layer tp :
  NoDup (created_queue tp (Some layer)) →
  (∃ q, PairedTilingSetQueue.new (mkPair (Some layer) None) tp = Some q
        ∧ PairedTilingSetQueue.has_both_layers q = false
        ∧ exhaust q tp = Some (created_queue tp (Some layer)))
  ∧ (∃ q, PairedTilingSetQueue.new (mkPair None (Some layer)) tp = Some q
          ∧ PairedTilingSetQueue.has_both_layers q = false
          ∧ exhaust q tp = Some (created_queue tp (Some layer))).
Proof.
  intros Hnd. unfold PairedTilingSetQueue.new, exhaust. simpl.
  split.
  - eexists. split; [reflexivity|]. split; [reflexivity|].
    apply pop_all_active_only; [|done|set_solver].
    unfold PairedTilingSetQueue.tiles_left, created_queue. simpl. lia.
  - eexists. split; [reflexivity|]. split; [reflexivity|].
    apply pop_all_pending_only; [|done|set_solver].
    unfold PairedTilingSetQueue.tiles_left, created_queue. simpl. lia.
Qed.

Lemma one_layer_pair_emits_iterator_example :
  ∃ q, PairedTilingSetQueue.new
         (mkPair (Some (layer_of [tile_shared; tile_active_own])) None)
         NEW_CONTENT_TAKES_PRIORITY = Some q
       ∧ PairedTilingSetQueue.has_both_layers q = false
       ∧ exhaust q NEW_CONTENT_TAKES_PRIORITY
         = Some [tile_shared; tile_active_own].
Proof.
  apply (one_layer_pair_emits_iterator
           (layer_of [tile_shared; tile_active_own])
           NEW_CONTENT_TAKES_PRIORITY).
  apply (bool_decide_unpack _). vm_compute. exact I.
Defined.

(** ** The queue of pairs *)

(** C7. After [Build] and after every [Pop] the vector of pairs is a heap
    under the comparator of the recorded policy, the tiles carrying
    distances that are numbers. [Build] always returns. [Pop] takes the
    root out of the heap with [pop_heap] (the pairs before the last are
    then a heap of the other pairs), pops that pair, and puts the changed
    pair back with [push_heap]. On pairs constructed under the iterator
    contract, which a [Build] on a queue without pairs constructs, [Pop]
    on a queue that is not empty returns. *)
Theorem heap_after_Build_and_Pop :
  (∀ self paired_layers tp,
     numeric_pairs self → Forall (numeric_layers tp) paired_layers →
     ∃ self',
       RasterTilePriorityQueue.Build self paired_layers tp = Some self'
       ∧ heap_ok self' ∧ numeric_pairs self')
  ∧ (∀ self self',
       numeric_pairs self → heap_ok self →
       RasterTilePriorityQueue.Pop self = Some self' →
       heap_ok self' ∧ numeric_pairs self'
       ∧ ∃ root others rest root',
           RasterTilePriorityQueue.paired_queues_ self = root :: others
           ∧ pop_heap
               (lower_priority (RasterTilePriorityQueue.tree_priority_ self))
               (RasterTilePriorityQueue.paired_queues_ self)
             = rest ++ [root]
           ∧ is_heap
               (lower_priority (RasterTilePriorityQueue.tree_priority_ self))
               rest
           ∧ rest ≡ₚ others
           ∧ PairedTilingSetQueue.Pop root
               (RasterTilePriorityQueue.tree_priority_ self) = Some root'
           ∧ RasterTilePriorityQueue.paired_queues_ self'
             = push_heap
                 (lower_priority (RasterTilePriorityQueue.tree_priority_ self))
                 (rest ++ [root']))
  ∧ (∀ self,
       ready_pairs self → RasterTilePriorityQueue.IsEmpty self = false →
       ∃ self',
         RasterTilePriorityQueue.Pop self = Some self' ∧ ready_pairs self')
  ∧ (∀ self paired_layers tp,
       RasterTilePriorityQueue.paired_queues_ self = [] →
       Forall (iterator_contract tp) paired_layers →
       ∃ self',
         RasterTilePriorityQueue.Build self paired_layers tp = Some self'
         ∧ ready_pairs self').
Proof.
  split; [|split; [|split]]; [| | |apply Build_ready].
  - apply Build_numeric_heap.
  - intros self self' Hnum Hheap Hpop.
    destruct (Pop_numeric_heap self self' Hnum Hheap Hpop)
      as (root & others & rest & root' & Hv & Hpopped & Hrest & Hperm
          & Hroot & -> & Hheap' & Hnum').
    split; [done|]. split; [done|].
    exists root, others, rest, root'. by repeat split.
  - apply Pop_ready_pairs.
Qed.

Lemma heap_after_Build_and_Pop_example :
  ∃ built popped,
    RasterTilePriorityQueue.Build
      (RasterTilePriorityQueue.new SAME_PRIORITY_FOR_BOTH_TREES)
      example_layers SMOOTHNESS_TAKES_PRIORITY = Some built
    ∧ heap_ok built
    ∧ RasterTilePriorityQueue.Pop built = Some popped
    ∧ heap_ok popped.
Proof.
  destruct (proj1 heap_after_Build_and_Pop
              (RasterTilePriorityQueue.new SAME_PRIORITY_FOR_BOTH_TREES)
              example_layers SMOOTHNESS_TAKES_PRIORITY)
    as (built & Hbuilt & Hheap & Hnum).
  { constructor. }
  { repeat constructor. }
  destruct (RasterTilePriorityQueue.Pop built) as [popped|] eqn:Hpop.
  - exists built, popped. repeat split; try done.
    by apply (proj1 (proj2 heap_after_Build_and_Pop) built popped).
  - exfalso. vm_compute in Hbuilt. injection Hbuilt as <-.
    vm_compute in Hpop. discriminate.
Defined.

(** C7 as stated fails when a distance is not a number. [Build] leaves the
    nine pairs in the order given, which is a heap: the pair of the NaN
    tile, at index 3, compares with neither its parent (3.0, index 1) nor
    its children (1.0, indices 7 and 8). [Pop] exchanges the root with the
    last pair, which stays at the root, advances the popped pair to its
    second NOW tile and sifts it up from index 8 past the NaN pair, the
    3.0 pair and the root. The 3.0 pair ends at index 3, above the 1.0 pair
    at index 7, which compares higher: the vector is no longer a heap. The
    iterators satisfy the iterator contract. *)
Lemma heap_lost_with_nan_distance :
  RasterTilePriorityQueue.Build
    (RasterTilePriorityQueue.new SAME_PRIORITY_FOR_BOTH_TREES)
    layers_with_nan SAME_PRIORITY_FOR_BOTH_TREES = Some built_with_nan
  ∧ Forall (iterator_contract SAME_PRIORITY_FOR_BOTH_TREES) layers_with_nan
  ∧ heap_ok built_with_nan
  ∧ RasterTilePriorityQueue.Pop built_with_nan = Some popped_with_nan
  ∧ comp_at (lower_priority SAME_PRIORITY_FOR_BOTH_TREES)
      (RasterTilePriorityQueue.paired_queues_ popped_with_nan) 3 7 = true
  ∧ ¬ heap_ok popped_with_nan.
Proof.
  split; [reflexivity|].
  split.
  { repeat (constructor; [split; [|split]; [..|by intros t _ ?%elem_of_nil]|]);
      try constructor;
      try (apply (bool_decide_unpack _); vm_compute; exact I). }
  split.
  { intros p c Hc.
    destruct p as [|[|[|[|p]]]];
      try (destruct Hc as [-> | ->]; reflexivity).
    apply comp_at_ge_r. unfold built_with_nan. simpl. lia. }
  split; [reflexivity|].
  split; [reflexivity|].
  intros Hheap. exact (Bool.diff_true_false (Hheap 3 7 (or_introl eq_refl))).
Qed.

(** C8, as the code has it. [Reset] removes every pair. [Build] constructs
    one pair per element of [paired_layers] and adds them to the pairs the
    queue holds: after [Reset] the queue holds exactly the pairs
    constructed from [paired_layers], one per element, and no other; on
    a queue that was not reset the pairs of the earlier [Build] stay. *)
Theorem Build_adds_one_pair_per_layer_pair self paired_layers tp :
  RasterTilePriorityQueue.paired_queues_ (RasterTilePriorityQueue.Reset self)
  = []
  ∧ ∃ pushed,
      Forall2 (λ it q, PairedTilingSetQueue.new it tp = Some q)
              paired_layers pushed
      ∧ (∃ self',
           RasterTilePriorityQueue.Build self paired_layers tp = Some self'
           ∧ RasterTilePriorityQueue.tree_priority_ self' = tp
           ∧ RasterTilePriorityQueue.paired_queues_ self'
             ≡ₚ RasterTilePriorityQueue.paired_queues_ self ++ pushed)
      ∧ (∃ self',
           RasterTilePriorityQueue.Build
             (RasterTilePriorityQueue.Reset self) paired_layers tp = Some self'
           ∧ RasterTilePriorityQueue.tree_priority_ self' = tp
           ∧ RasterTilePriorityQueue.paired_queues_ self' ≡ₚ pushed
           ∧ length (RasterTilePriorityQueue.paired_queues_ self')
             = length paired_layers).
Proof.
  split; [done|].
  destruct (mapM_new_total tp paired_layers) as [pushed Hpushed].
  exists pushed. split; [by apply mapM_Some|].
  unfold RasterTilePriorityQueue.Build. rewrite Hpushed. simpl.
  split; eexists; (split; [done|]); (split; [done|]); simpl.
  - apply make_heap_Permutation.
  - split; [apply make_heap_Permutation|].
    rewrite (Permutation_length (make_heap_Permutation _ _)).
    apply mapM_Some in Hpushed. symmetry. by eapply Forall2_length.
Qed.

(** C8 as stated fails for a [Build] on a queue that was not reset: the
    second [Build] of one layer pair leaves two pairs in the queue. *)
Lemma Build_twice_keeps_earlier_pairs :
  ∃ once twice,
    RasterTilePriorityQueue.Build
      (RasterTilePriorityQueue.new SAME_PRIORITY_FOR_BOTH_TREES)
      [pair_active_layer] SAME_PRIORITY_FOR_BOTH_TREES = Some once
    ∧ RasterTilePriorityQueue.Build once [pair_active_layer]
        SAME_PRIORITY_FOR_BOTH_TREES = Some twice
    ∧ length [pair_active_layer] = 1
    ∧ length (RasterTilePriorityQueue.paired_queues_ twice) = 2.
Proof. eexists _, _. repeat split; vm_compute; reflexivity. Qed.

(** ** The traced state *)

(** C9 fails on the code: for a pair whose only iterator is the pending
    one, holding a tile, [StateAsValue] writes [has_tile] false into the
    "pending_queue" dictionary (the value of the active queue), although
    the pending queue is present and not empty. *)
Lemma StateAsValue_pending_has_tile_is_active :
  let q := pending_only [tile_soon_high] in
  negb (PairedTilingSetQueue.no_tiles (PairedTilingSetQueue.pending_queue q))
  = true
  ∧ traced_boolean (PairedTilingSetQueue.StateAsValue q)
      "pending_queue" "has_tile" = Some false.
Proof. split; vm_compute; reflexivity. Qed.

(** What the code writes in general: the "pending_queue" dictionary's
    [has_tile] is that of the active queue. *)
Lemma StateAsValue_pending_has_tile q :
  traced_boolean (PairedTilingSetQueue.StateAsValue q)
    "pending_queue" "has_tile"
  = Some (negb (PairedTilingSetQueue.no_tiles
                  (PairedTilingSetQueue.active_queue q))).
Proof. reflexivity. Qed.

(** * Further properties of the code *)

(** ** The comparator *)

(** X1. The comparator never dereferences a null iterator or reads the top
    of an empty one: it returns a boolean for every two pairs and every
    policy. What it returns depends on each pair only through the tile
    [NextTileIteratorTree] selects, and is the lexicographic order by
    class, resolution rank and distance. *)
Theorem RasterOrderComparator_reads_next_tiles tp a b :
  RasterOrderComparator tp a b
  = Some match next_tile a tp, next_tile b tp with
         | _, None => false
         | None, Some _ => true
         | Some ta, Some tb => rank_lower tp ta tb
         end.
Proof.
  rewrite RasterOrderComparator_key. f_equal.
  destruct (next_tile a tp), (next_tile b tp); simpl; try done.
  apply tile_lower_rank.
Qed.

(** X2. A pair that is not empty always has a selected iterator, that
    iterator is present and has a top: [NextTileIteratorTree] never selects
    an absent or an empty iterator. *)
Theorem NextTileIteratorTree_selects_tiles q tp :
  PairedTilingSetQueue.IsEmpty q = false →
  ∃ tree tile rest,
    PairedTilingSetQueue.NextTileIteratorTree q tp = Some tree
    ∧ PairedTilingSetQueue.queue_of q tree = Some (tile :: rest)
    ∧ next_tile q tp = Some tile.
Proof.
  intros He.
  destruct (NextTileIteratorTree_nonempty q tp He)
    as (tree & tile & rest & Hn & Hq).
  exists tree, tile, rest. repeat split; try done.
  unfold next_tile. rewrite Hn. simpl. by rewrite Hq.
Qed.

Lemma NextTileIteratorTree_selects_tiles_example :
  ∃ tree tile rest,
    PairedTilingSetQueue.NextTileIteratorTree
      (pending_only [tile_soon_high]) SMOOTHNESS_TAKES_PRIORITY = Some tree
    ∧ PairedTilingSetQueue.queue_of (pending_only [tile_soon_high]) tree
      = Some (tile :: rest)
    ∧ next_tile (pending_only [tile_soon_high]) SMOOTHNESS_TAKES_PRIORITY
      = Some tile.
Proof.
  by apply (NextTileIteratorTree_selects_tiles
              (pending_only [tile_soon_high]) SMOOTHNESS_TAKES_PRIORITY).
Defined.

(** X3. A tile in a more urgent bin compares strictly higher, whatever the
    policy, the resolutions, the distances and the pending bins. *)
Theorem more_urgent_bin_compares_higher tp a b ta tb :
  next_tile a tp = Some ta →
  next_tile b tp = Some tb →
  bin_higher (priority_bin (priority_for_tree_priority tb tp))
             (priority_bin (priority_for_tree_priority ta tp)) = true →
  RasterOrderComparator tp a b = Some true
  ∧ RasterOrderComparator tp b a = Some false.
Proof.
  intros Ha Hb Hbin.
  rewrite !RasterOrderComparator_key, Ha, Hb. simpl.
  rewrite !tile_lower_rank. unfold rank_lower, class_rank.
  destruct (priority_bin (priority_for_tree_priority ta tp)),
    (priority_bin (priority_for_tree_priority tb tp)); try done;
    by repeat case_match.
Qed.

Lemma more_urgent_bin_compares_higher_example :
  RasterOrderComparator SAME_PRIORITY_FOR_BOTH_TREES
    (active_only [tile_near_eventually]) (active_only [tile_soon_non_ideal])
  = Some true
  ∧ RasterOrderComparator SAME_PRIORITY_FOR_BOTH_TREES
      (active_only [tile_soon_non_ideal]) (active_only [tile_near_eventually])
    = Some false.
Proof.
  by apply (more_urgent_bin_compares_higher SAME_PRIORITY_FOR_BOTH_TREES
              (active_only [tile_near_eventually])
              (active_only [tile_soon_non_ideal])
              tile_near_eventually tile_soon_non_ideal).
Defined.

(** X4. Between two tiles of the same bin and the same resolution, the
    pending-NOW check not deciding, the comparator returns whether the
    second is strictly nearer ([<] on the distances; false when a distance
    is not a number). *)
Theorem nearer_tile_compares_higher tp a b ta tb :
  next_tile a tp = Some ta →
  next_tile b tp = Some tb →
  priority_bin (priority_for_tree_priority ta tp)
    = priority_bin (priority_for_tree_priority tb tp) →
  resolution (priority_for_tree_priority ta tp)
    = resolution (priority_for_tree_priority tb tp) →
  pending_now_class tp ta = false →
  pending_now_class tp tb = false →
  RasterOrderComparator tp a b
  = Some (SFltb (distance_to_visible (priority_for_tree_priority tb tp))
                (distance_to_visible (priority_for_tree_priority ta tp))).
Proof.
  intros Ha Hb Hbin Hres Hca Hcb.
  rewrite RasterOrderComparator_key, Ha, Hb. simpl.
  rewrite tile_lower_rank.
  unfold rank_lower, class_rank, resolution_rank, distance_rank.
  rewrite Hca, Hcb, Hbin, Hres.
  by rewrite !Nat.ltb_irrefl, !Nat.eqb_refl.
Qed.

Lemma nearer_tile_compares_higher_example :
  RasterOrderComparator SMOOTHNESS_TAKES_PRIORITY
    (active_only [tile_soon_far]) (active_only [tile_soon_high])
  = Some true.
Proof.
  by apply (nearer_tile_compares_higher SMOOTHNESS_TAKES_PRIORITY
              (active_only [tile_soon_far]) (active_only [tile_soon_high])
              tile_soon_far tile_soon_high).
Defined.

(** ** The skip loop *)

(** What a successful [Pop] did. *)
Lemma Pop_inv q tp q' :
  PairedTilingSetQueue.Pop q tp = Some q' →
  ∃ tree tile rest,
    PairedTilingSetQueue.IsEmpty q = false
    ∧ PairedTilingSetQueue.NextTileIteratorTree q tp = Some tree
    ∧ PairedTilingSetQueue.queue_of q tree = Some (tile :: rest)
    ∧ (tile ∉ PairedTilingSetQueue.returned_tiles_for_debug q)
    ∧ PairedTilingSetQueue.Top q tp = Some tile
    ∧ (if PairedTilingSetQueue.has_both_layers q
       then PairedTilingSetQueue.SkipTilesReturnedByTwin
              (PairedTilingSetQueue.pop_queue (with_returned q tile) tree) tp
            = Some q'
       else q' = PairedTilingSetQueue.pop_queue (with_returned q tile) tree)
    ∧ (PairedTilingSetQueue.IsEmpty q' = true
       ∨ is_Some (PairedTilingSetQueue.Top q' tp)).
Proof.
  unfold PairedTilingSetQueue.Pop.
  destruct (PairedTilingSetQueue.IsEmpty q) eqn:He; [done|].
  destruct (NextTileIteratorTree_nonempty q tp He)
    as (tree & tile & rest & Hn & Hq).
  rewrite Hn. simpl. rewrite Hq. simpl.
  case_bool_decide as Hin; [done|].
  fold (with_returned q tile).
  rewrite has_both_pop_queue. simpl.
  intros Hpop. exists tree, tile, rest.
  split; [done|]. split; [done|]. split; [done|]. split; [done|].
  split; [by eapply Top_selected|].
  destruct (PairedTilingSetQueue.has_both_layers q).
  - destruct (PairedTilingSetQueue.SkipTilesReturnedByTwin _ tp)
      as [skipped|]; [|done]. simpl in Hpop.
    destruct (PairedTilingSetQueue.IsEmpty skipped) eqn:He'.
    + injection Hpop as <-. auto.
    + destruct (PairedTilingSetQueue.Top skipped tp) eqn:Ht; [|done].
      injection Hpop as <-. split; [done|]. right. by rewrite Ht.
  - simpl in Hpop.
    destruct (PairedTilingSetQueue.IsEmpty
                (PairedTilingSetQueue.pop_queue _ _)) eqn:He'.
    + injection Hpop as <-. auto.
    + destruct (PairedTilingSetQueue.Top
                  (PairedTilingSetQueue.pop_queue _ _) tp) eqn:Ht; [|done].
      injection Hpop as <-. split; [done|]. right. by rewrite Ht.
Qed.

Lemma HigherPriorityTree_shared_twin tp tile tree :
  HigherPriorityTree tp None None (Some tile) ≠ Some tree →
  HigherPriorityTree tp None None (Some tile) = Some (twin tree).
Proof.
  destruct (HigherPriorityTree_shared_total tp None None tile) as [owner ->].
  destruct owner, tree; simpl; congruence.
Qed.

(** The loop pops, from the front of either iterator, shared tiles that
    [HigherPriorityTree] assigns to the other tree, and nothing else. *)
Lemma skip_loop_drops tp fuel q :
  PairedTilingSetQueue.tiles_left q ≤ fuel →
  ∃ q' dropped,
    PairedTilingSetQueue.skip_loop fuel q tp = Some q'
    ∧ (∀ tree,
         default [] (PairedTilingSetQueue.queue_of q tree)
         = dropped tree
           ++ default [] (PairedTilingSetQueue.queue_of q' tree)
         ∧ (is_Some (PairedTilingSetQueue.queue_of q' tree)
            ↔ is_Some (PairedTilingSetQueue.queue_of q tree))
         ∧ Forall (λ t, is_shared t = true
                        ∧ HigherPriorityTree tp None None (Some t)
                          = Some (twin tree))
                  (dropped tree))
    ∧ PairedTilingSetQueue.has_both_layers q'
      = PairedTilingSetQueue.has_both_layers q
    ∧ PairedTilingSetQueue.returned_tiles_for_debug q'
      = PairedTilingSetQueue.returned_tiles_for_debug q
    ∧ (∀ tree tile rest,
         PairedTilingSetQueue.NextTileIteratorTree q' tp = Some tree →
         PairedTilingSetQueue.queue_of q' tree = Some (tile :: rest) →
         is_shared tile = false
         ∨ HigherPriorityTree tp None None (Some tile) = Some tree).
Proof.
  revert q. induction fuel as [|fuel IH]; intros q Hfuel.
  - destruct (PairedTilingSetQueue.IsEmpty q) eqn:He.
    + exists q, (λ _, []). simpl. rewrite He.
      repeat split; try done.
      intros tree tile rest.
      unfold PairedTilingSetQueue.NextTileIteratorTree. by rewrite He.
    + apply tiles_left_nonempty in He. lia.
  - simpl. destruct (PairedTilingSetQueue.IsEmpty q) eqn:He.
    { exists q, (λ _, []). repeat split; try done.
      intros tree tile rest.
      unfold PairedTilingSetQueue.NextTileIteratorTree. by rewrite He. }
    destruct (NextTileIteratorTree_nonempty q tp He)
      as (tree & tile & rest & Hn & Hq).
    rewrite Hn. simpl. rewrite Hq. simpl.
    destruct (is_shared tile) eqn:Hs; simpl.
    2:{ exists q, (λ _, []). repeat split; try done.
        intros tree' tile' rest'. rewrite Hn. intros [= <-].
        rewrite Hq. intros [= <- <-]. by left. }
    destruct (HigherPriorityTree_shared_total tp None None tile) as [owner Ho].
    rewrite Ho. simpl.
    case_bool_decide as Hd.
    + subst owner. exists q, (λ _, []). repeat split; try done.
      intros tree' tile' rest'. rewrite Hn. intros [= <-].
      rewrite Hq. intros [= <- <-]. by right.
    + pose proof (tiles_left_pop_queue q tree tile rest Hq) as Hl.
      destruct (IH (PairedTilingSetQueue.pop_queue q tree))
        as (q' & dropped & Hq' & Hdrop & Hb & Hret & Hexit); [lia|].
      exists q', (λ w, if decide (w = tree) then tile :: dropped tree
                       else dropped w).
      split; [done|]. split; [|split; [|split]].
      * intros w. destruct (Hdrop w) as (Hw & Hsome & Hall).
        destruct (decide (w = tree)) as [->|Hne].
        -- split; [|split].
           ++ rewrite Hq. simpl. f_equal. rewrite <-Hw.
              destruct q as [aq pq both ret], tree; simpl in *;
                by rewrite Hq.
           ++ rewrite Hsome.
              destruct q as [aq pq both ret], tree; simpl in *;
                by rewrite Hq.
           ++ constructor; [|done]. split; [done|].
              apply HigherPriorityTree_shared_twin. congruence.
        -- split; [|split; [|done]].
           ++ rewrite <-Hw. by destruct q as [aq pq both ret], tree, w.
           ++ rewrite Hsome. by destruct q as [aq pq both ret], tree, w.
      * by rewrite Hb, has_both_pop_queue.
      * by rewrite Hret, returned_pop_queue.
      * done.
Qed.

(** X5. [SkipTilesReturnedByTwin] returns for every pair and policy. It
    pops, from the front of either iterator, only shared tiles that
    [HigherPriorityTree] assigns to the other tree; it changes neither
    [has_both_layers] nor the set of returned tiles; and it stops with the
    pair empty or with a top of the selected iterator that is not shared or
    is assigned to that iterator's tree. *)
Theorem SkipTilesReturnedByTwin_drops_only_twins q tp :
  ∃ q' dropped,
    PairedTilingSetQueue.SkipTilesReturnedByTwin q tp = Some q'
    ∧ (∀ tree,
         default [] (PairedTilingSetQueue.queue_of q tree)
         = dropped tree
           ++ default [] (PairedTilingSetQueue.queue_of q' tree)
         ∧ Forall (λ t, is_shared t = true
                        ∧ HigherPriorityTree tp None None (Some t)
                          = Some (twin tree))
                  (dropped tree))
    ∧ PairedTilingSetQueue.has_both_layers q'
      = PairedTilingSetQueue.has_both_layers q
    ∧ PairedTilingSetQueue.returned_tiles_for_debug q'
      = PairedTilingSetQueue.returned_tiles_for_debug q
    ∧ (∀ tree tile rest,
         PairedTilingSetQueue.NextTileIteratorTree q' tp = Some tree →
         PairedTilingSetQueue.queue_of q' tree = Some (tile :: rest) →
         is_shared tile = false
         ∨ HigherPriorityTree tp None None (Some tile) = Some tree).
Proof.
  destruct (skip_loop_drops tp (PairedTilingSetQueue.tiles_left q) q)
    as (q' & dropped & Hq' & Hdrop & Hb & Hret & Hexit); [done|].
  exists q', dropped. repeat split; try done; by destruct (Hdrop tree) as (?&?&?).
Qed.

(** A pair whose selected top is accepted is left as it is by the loop. *)
Lemma skip_loop_fixpoint tp fuel q :
  PairedTilingSetQueue.tiles_left q ≤ fuel →
  (∀ tree tile rest,
     PairedTilingSetQueue.NextTileIteratorTree q tp = Some tree →
     PairedTilingSetQueue.queue_of q tree = Some (tile :: rest) →
     is_shared tile = false
     ∨ HigherPriorityTree tp None None (Some tile) = Some tree) →
  PairedTilingSetQueue.skip_loop fuel q tp = Some q.
Proof.
  intros Hfuel Hexit.
  destruct (PairedTilingSetQueue.IsEmpty q) eqn:He.
  { destruct fuel; simpl; by rewrite He. }
  pose proof (tiles_left_nonempty q He).
  destruct fuel as [|fuel]; [lia|]. simpl. rewrite He.
  destruct (NextTileIteratorTree_nonempty q tp He)
    as (tree & tile & rest & Hn & Hq).
  rewrite Hn. simpl. rewrite Hq. simpl.
  destruct (Hexit _ _ _ Hn Hq) as [-> | ->]; [done|]. simpl.
  destruct (is_shared tile); [|done]. simpl.
  by rewrite bool_decide_eq_true_2.
Qed.

(** X6. Running [SkipTilesReturnedByTwin] a second time changes nothing. *)
Theorem SkipTilesReturnedByTwin_idempotent q tp :
  ∃ q',
    PairedTilingSetQueue.SkipTilesReturnedByTwin q tp = Some q'
    ∧ PairedTilingSetQueue.SkipTilesReturnedByTwin q' tp = Some q'.
Proof.
  destruct (skip_loop_drops tp (PairedTilingSetQueue.tiles_left q) q)
    as (q' & dropped & Hq' & Hdrop & Hb & Hret & Hexit); [done|].
  exists q'. split; [done|]. by apply skip_loop_fixpoint.
Qed.

(** X7. When both iterators are at one and the same tile, the loop pops
    nothing: the iterator selected from the two tops is the one
    [HigherPriorityTree] assigns the tile to. *)
Theorem SkipTilesReturnedByTwin_same_top tile arest prest both ret tp :
  let q := PairedTilingSetQueue.mk (Some (tile :: arest))
             (Some (tile :: prest)) both ret in
  PairedTilingSetQueue.SkipTilesReturnedByTwin q tp = Some q
  ∧ PairedTilingSetQueue.NextTileIteratorTree q tp
    = HigherPriorityTree tp None None (Some tile).
Proof.
  intros q.
  assert (PairedTilingSetQueue.NextTileIteratorTree q tp
          = HigherPriorityTree tp None None (Some tile)) as Hn
    by (by destruct tp).
  split; [|done]. apply skip_loop_fixpoint; [done|].
  intros tree t rest. rewrite Hn. intros Ho Hq. right.
  destruct tree; simpl in Hq; by injection Hq as <- <-.
Qed.

(** ** The pair's [Top] and [Pop] *)

Lemma settled_of_exit q tp :
  (∀ tree tile rest,
     PairedTilingSetQueue.NextTileIteratorTree q tp = Some tree →
     PairedTilingSetQueue.queue_of q tree = Some (tile :: rest) →
     is_shared tile = false
     ∨ HigherPriorityTree tp None None (Some tile) = Some tree) →
  settled q tp.
Proof.
  intros Hexit tree tile rest Hn Hq. unfold accepts.
  destruct (Hexit _ _ _ Hn Hq) as [-> | ->].
  - by rewrite orb_true_r.
  - rewrite bool_decide_eq_true_2 by done. by rewrite orb_true_r.
Qed.

Lemma Pop_settled q tp q' :
  PairedTilingSetQueue.Pop q tp = Some q' → settled q' tp.
Proof.
  intros (tree & tile & rest & He & Hn & Hq & Hfresh & Htop & Hq' & _)%Pop_inv.
  destruct (PairedTilingSetQueue.has_both_layers q) eqn:Hb.
  - destruct (skip_loop_drops tp _
                (PairedTilingSetQueue.pop_queue (with_returned q tile) tree)
                (Nat.le_refl _))
      as (q'' & dropped & Hs & _ & _ & _ & Hexit).
    unfold PairedTilingSetQueue.SkipTilesReturnedByTwin in Hq'.
    rewrite Hq' in Hs. injection Hs as <-. by apply settled_of_exit.
  - subst q'. apply settled_one_layer.
    by rewrite has_both_pop_queue.
Qed.

(** X8. Invariant I2 holds after the constructor and after every [Pop]
    that returns: in a pair with both layers the top of the selected
    iterator, which is the tile [Top] returns next, is not shared or is
    assigned by [HigherPriorityTree] to the selected tree. *)
Theorem rightful_top_after_new_and_Pop tp :
  (∀ layer_pair,
     ∃ q, PairedTilingSetQueue.new layer_pair tp = Some q ∧ settled q tp)
  ∧ (∀ q q', PairedTilingSetQueue.Pop q tp = Some q' → settled q' tp)
  ∧ (∀ q tree tile,
       settled q tp →
       PairedTilingSetQueue.has_both_layers q = true →
       PairedTilingSetQueue.NextTileIteratorTree q tp = Some tree →
       PairedTilingSetQueue.Top q tp = Some tile →
       is_shared tile = false
       ∨ HigherPriorityTree tp None None (Some tile) = Some tree).
Proof.
  split; [|split].
  - intros layer_pair.
    destruct (new_spec layer_pair tp) as (q & Hq & _ & _ & _ & Hset & _).
    by exists q.
  - intros q q'. apply Pop_settled.
  - intros q tree tile Hset Hb Hn Htop.
    unfold PairedTilingSetQueue.Top in Htop.
    destruct (PairedTilingSetQueue.IsEmpty q) eqn:He; [done|].
    destruct (NextTileIteratorTree_nonempty q tp He)
      as (tree' & tile' & rest & Hn' & Hq).
    rewrite Hn' in Hn. injection Hn as ->.
    rewrite Hn' in Htop. simpl in Htop. rewrite Hq in Htop. simpl in Htop.
    case_bool_decide; [done|]. injection Htop as ->.
    pose proof (Hset _ _ _ Hn' Hq) as Hacc.
    unfold accepts in Hacc. rewrite Hb in Hacc. simpl in Hacc.
    destruct (is_shared tile); [right|by left].
    by apply bool_decide_eq_true in Hacc.
Qed.

(** What a [Pop] that returns has done to the pair. *)
Lemma Pop_effect q tp q' :
  PairedTilingSetQueue.Pop q tp = Some q' →
  ∃ tile,
    PairedTilingSetQueue.Top q tp = Some tile
    ∧ (tile ∉ PairedTilingSetQueue.returned_tiles_for_debug q)
    ∧ PairedTilingSetQueue.returned_tiles_for_debug q'
      = {[tile]} ∪ PairedTilingSetQueue.returned_tiles_for_debug q
    ∧ PairedTilingSetQueue.has_both_layers q'
      = PairedTilingSetQueue.has_both_layers q
    ∧ PairedTilingSetQueue.tiles_left q' < PairedTilingSetQueue.tiles_left q
    ∧ (PairedTilingSetQueue.IsEmpty q' = false →
       ∃ next,
         PairedTilingSetQueue.Top q' tp = Some next
         ∧ next ≠ tile
         ∧ (next ∉ PairedTilingSetQueue.returned_tiles_for_debug q)).
Proof.
  intros (tree & tile & rest & He & Hn & Hq & Hfresh & Htop & Hq' & Hnext)%Pop_inv.
  exists tile. split; [done|]. split; [done|].
  pose proof (tiles_left_pop_queue q tree tile rest Hq) as Hl.
  assert (PairedTilingSetQueue.tiles_left
            (PairedTilingSetQueue.pop_queue (with_returned q tile) tree)
          = PairedTilingSetQueue.tiles_left
              (PairedTilingSetQueue.pop_queue q tree)) as Hl'
    by (by destruct q, tree).
  assert (PairedTilingSetQueue.returned_tiles_for_debug q'
          = {[tile]} ∪ PairedTilingSetQueue.returned_tiles_for_debug q
          ∧ PairedTilingSetQueue.has_both_layers q'
            = PairedTilingSetQueue.has_both_layers q
          ∧ PairedTilingSetQueue.tiles_left q'
            < PairedTilingSetQueue.tiles_left q) as (Hret & Hb & Hlt).
  { destruct (PairedTilingSetQueue.has_both_layers q) eqn:Hboth.
    - destruct (skip_loop_spec tp _
                  (PairedTilingSetQueue.pop_queue (with_returned q tile) tree)
                  (Nat.le_refl _))
        as (q'' & Hs & _ & Hret & Hb & _ & Hle).
      { by rewrite has_both_pop_queue. }
      unfold PairedTilingSetQueue.SkipTilesReturnedByTwin in Hq'.
      rewrite Hq' in Hs. injection Hs as <-.
      rewrite Hret, returned_pop_queue. repeat split; [done|lia].
    - subst q'. rewrite returned_pop_queue, has_both_pop_queue.
      repeat split; [done|lia]. }
  repeat split; try done.
  intros He'. destruct Hnext as [Hempty|[next Hnext]]; [congruence|].
  exists next. split; [done|].
  unfold PairedTilingSetQueue.Top in Hnext. rewrite He' in Hnext.
  destruct (PairedTilingSetQueue.NextTileIteratorTree q' tp); [|done].
  simpl in Hnext.
  destruct (Top_ptr _) as [t|]; [|done]. simpl in Hnext.
  case_bool_decide as Hin; [done|]. injection Hnext as ->.
  rewrite Hret in Hin. split.
  - intros ->. apply Hin, elem_of_union. left. by apply elem_of_singleton.
  - intros Hold. apply Hin, elem_of_union. by right.
Qed.

(** X9. A [Pop] that returns has removed the tile [Top] returned: that
    tile was not among the returned tiles and now is, the pair holds
    fewer tiles, [has_both_layers] is as before, and the next [Top], if the
    pair is not empty, returns a tile that was never returned. *)
Theorem Pop_removes_what_Top_returned q tp q' :
  PairedTilingSetQueue.Pop q tp = Some q' →
  ∃ tile,
    PairedTilingSetQueue.Top q tp = Some tile
    ∧ (tile ∉ PairedTilingSetQueue.returned_tiles_for_debug q)
    ∧ PairedTilingSetQueue.returned_tiles_for_debug q'
      = {[tile]} ∪ PairedTilingSetQueue.returned_tiles_for_debug q
    ∧ PairedTilingSetQueue.has_both_layers q'
      = PairedTilingSetQueue.has_both_layers q
    ∧ PairedTilingSetQueue.tiles_left q' < PairedTilingSetQueue.tiles_left q
    ∧ (PairedTilingSetQueue.IsEmpty q' = false →
       ∃ next,
         PairedTilingSetQueue.Top q' tp = Some next
         ∧ next ≠ tile
         ∧ (next ∉ PairedTilingSetQueue.returned_tiles_for_debug q)).
Proof. apply Pop_effect. Qed.

Lemma Pop_removes_what_Top_returned_example :
  ∃ tile,
    PairedTilingSetQueue.Top (active_only [tile_shared; tile_active_own])
      SAME_PRIORITY_FOR_BOTH_TREES = Some tile
    ∧ (tile ∉ (∅ : gset Tile)).
Proof.
  destruct (Pop_removes_what_Top_returned
              (active_only [tile_shared; tile_active_own])
              SAME_PRIORITY_FOR_BOTH_TREES
              (PairedTilingSetQueue.mk (Some [tile_active_own]) None false
                 ({[tile_shared]} ∪ ∅)))
    as (tile & Htop & Hfresh & _).
  - vm_compute. reflexivity.
  - by exists tile.
Defined.

(** The tiles a sequence of [Pop] calls returns are distinct and were not
    among the returned tiles before. *)
Lemma pop_all_NoDup tp fuel q emitted :
  pop_all fuel q tp = Some emitted →
  NoDup emitted
  ∧ (∀ t, t ∈ emitted →
          t ∉ PairedTilingSetQueue.returned_tiles_for_debug q).
Proof.
  revert q emitted. induction fuel as [|fuel IH]; intros q emitted; simpl.
  - destruct (PairedTilingSetQueue.IsEmpty q); [|done].
    intros [= <-]. split; [constructor|]. by intros t ?%elem_of_nil.
  - destruct (PairedTilingSetQueue.IsEmpty q).
    { intros [= <-]. split; [constructor|]. by intros t ?%elem_of_nil. }
    destruct (PairedTilingSetQueue.Top q tp) as [tile|] eqn:Htop; [|done].
    simpl.
    destruct (PairedTilingSetQueue.Pop q tp) as [q'|] eqn:Hpop; [|done].
    simpl.
    destruct (pop_all fuel q' tp) as [rest|] eqn:Hrest; [|done].
    simpl. intros [= <-].
    destruct (Pop_effect q tp q' Hpop)
      as (tile' & Htop' & Hfresh & Hret & _).
    rewrite Htop in Htop'. injection Htop' as <-.
    destruct (IH q' rest Hrest) as [Hnd Hout].
    split.
    + constructor; [|done]. intros Hin. apply (Hout tile Hin).
      rewrite Hret. apply elem_of_union. left. by apply elem_of_singleton.
    + intros t [->|Hin]%elem_of_cons; [done|].
      intros Hold. apply (Hout t Hin). rewrite Hret.
      apply elem_of_union. by right.
Qed.

(** X10. Whatever the iterators yield, a sequence of [Top] and [Pop] calls
    that runs to the end without failing a debug check has returned
    distinct tiles, none of them returned before. *)
Theorem exhaust_returns_distinct_tiles q tp emitted :
  exhaust q tp = Some emitted →
  NoDup emitted
  ∧ (∀ t, t ∈ emitted →
          t ∉ PairedTilingSetQueue.returned_tiles_for_debug q).
Proof. apply pop_all_NoDup. Qed.

Lemma exhaust_returns_distinct_tiles_example :
  NoDup [tile_shared; tile_active_own].
Proof.
  apply (exhaust_returns_distinct_tiles
           (active_only [tile_shared; tile_active_own])
           NEW_CONTENT_TAKES_PRIORITY [tile_shared; tile_active_own]).
  vm_compute. reflexivity.
Defined.

(** ** The order in which a pair returns its tiles *)

Lemma due_on_pop_queue_selected q tp tree tile rest :
  PairedTilingSetQueue.queue_of q tree = Some (tile :: rest) →
  accepts tp (PairedTilingSetQueue.has_both_layers q) tree tile = true →
  due_on q tp tree
  = tile :: due_on (PairedTilingSetQueue.pop_queue (with_returned q tile) tree)
                   tp tree.
Proof.
  intros Hq Hacc. unfold due_on. rewrite has_both_pop_queue. simpl.
  rewrite Hq. simpl. rewrite filter_cons_True by done. f_equal.
  destruct q as [aq pq both ret], tree; simpl in *; by rewrite Hq.
Qed.

Lemma due_on_pop_queue_twin q tp tree tile :
  due_on (PairedTilingSetQueue.pop_queue (with_returned q tile) tree) tp
         (twin tree)
  = due_on q tp (twin tree).
Proof. by destruct q, tree. Qed.

Lemma filter_twins tp tree tiles :
  Forall (λ t, is_shared t = true
               ∧ HigherPriorityTree tp None None (Some t) = Some (twin tree))
         tiles →
  filter (λ t, accepts tp true tree t = true) tiles = [].
Proof.
  induction 1 as [|t l [Hs Ho] _ IH]; [done|].
  rewrite filter_cons_False; [done|].
  unfold accepts. rewrite Hs, Ho. simpl.
  rewrite bool_decide_eq_false_2; [done|]. by destruct tree.
Qed.

Lemma skip_due_on tp q q' tree :
  PairedTilingSetQueue.has_both_layers q = true →
  PairedTilingSetQueue.SkipTilesReturnedByTwin q tp = Some q' →
  due_on q' tp tree = due_on q tp tree.
Proof.
  intros Hb Hskip.
  destruct (skip_loop_drops tp (PairedTilingSetQueue.tiles_left q) q)
    as (q'' & dropped & Hs & Hdrop & Hb' & _); [done|].
  unfold PairedTilingSetQueue.SkipTilesReturnedByTwin in Hskip.
  rewrite Hskip in Hs. injection Hs as <-.
  destruct (Hdrop tree) as (Hq & _ & Hall).
  unfold due_on. rewrite Hb', Hq, filter_app, Hb.
  by rewrite (filter_twins tp tree (dropped tree) Hall).
Qed.

(** One [Pop] of a ready pair, by iterator: the tile comes off the front
    of the due tiles of the selected iterator; those of the other iterator
    stay. *)
Lemma Pop_side tp q :
  pair_ready tp q → PairedTilingSetQueue.IsEmpty q = false →
  ∃ tree tile q',
    PairedTilingSetQueue.NextTileIteratorTree q tp = Some tree
    ∧ PairedTilingSetQueue.Top q tp = Some tile
    ∧ PairedTilingSetQueue.Pop q tp = Some q'
    ∧ due_on q tp tree = tile :: due_on q' tp tree
    ∧ due_on q' tp (twin tree) = due_on q tp (twin tree)
    ∧ pair_ready tp q'
    ∧ PairedTilingSetQueue.tiles_left q' < PairedTilingSetQueue.tiles_left q.
Proof.
  intros Hready He.
  destruct (Pop_ready tp q Hready He) as (q' & Hpop & Hready').
  destruct (Pop_inv q tp q' Hpop)
    as (tree & tile & rest & _ & Hn & Hq & Hfresh & Htop & Hq' & _).
  destruct (Pop_effect q tp q' Hpop)
    as (tile' & _ & _ & _ & _ & Hlt & _).
  exists tree, tile, q'.
  split; [done|]. split; [done|]. split; [done|].
  split; [|split; [|by split]].
  - destruct Hready as (Hset & _).
    rewrite (due_on_pop_queue_selected q tp tree tile rest Hq)
      by (by eapply Hset).
    f_equal. destruct (PairedTilingSetQueue.has_both_layers q) eqn:Hb.
    + symmetry. apply skip_due_on; [|done]. by rewrite has_both_pop_queue.
    + by subst q'.
  - rewrite <-(due_on_pop_queue_twin q tp tree tile).
    destruct (PairedTilingSetQueue.has_both_layers q) eqn:Hb.
    + apply skip_due_on; [|done]. by rewrite has_both_pop_queue.
    + by subst q'.
Qed.

Lemma due_on_empty q tp tree :
  PairedTilingSetQueue.IsEmpty q = true → due_on q tp tree = [].
Proof.
  destruct q as [[[|ta la]|] [[|tb lb]|] both ret], tree; done.
Qed.

Lemma pop_all_merged tp fuel q :
  PairedTilingSetQueue.tiles_left q ≤ fuel →
  pair_ready tp q →
  ∃ emitted,
    pop_all fuel q tp = Some emitted
    ∧ merged (due_on q tp ACTIVE_TREE) (due_on q tp PENDING_TREE) emitted.
Proof.
  revert q. induction fuel as [|fuel IH]; intros q Hfuel Hready; simpl;
    destruct (PairedTilingSetQueue.IsEmpty q) eqn:He.
  - exists []. rewrite !due_on_empty by done. split; [done|constructor].
  - apply tiles_left_nonempty in He. lia.
  - exists []. rewrite !due_on_empty by done. split; [done|constructor].
  - destruct (Pop_side tp q Hready He)
      as (tree & tile & q' & Hn & -> & -> & Hsel & Htwin & Hready' & Hlt).
    simpl. destruct (IH q') as (rest & -> & Hmerged); [lia|done|].
    exists (tile :: rest). split; [done|].
    destruct tree; simpl in Htwin; rewrite Hsel, <-Htwin;
      by constructor.
Qed.

Lemma new_due_on layer_pair tp q tree :
  PairedTilingSetQueue.new layer_pair tp = Some q →
  due_on q tp tree
  = filter (λ t, accepts tp (PairedTilingSetQueue.has_both_layers q) tree t
                 = true)
           (created_queue tp match tree with
                             | ACTIVE_TREE => active layer_pair
                             | PENDING_TREE => pending layer_pair
                             end).
Proof.
  unfold PairedTilingSetQueue.new.
  set (raw := PairedTilingSetQueue.mk _ _ _ _).
  assert (due_on raw tp tree
          = filter (λ t, accepts tp (PairedTilingSetQueue.has_both_layers raw)
                           tree t = true)
                   (created_queue tp match tree with
                                     | ACTIVE_TREE => active layer_pair
                                     | PENDING_TREE => pending layer_pair
                                     end)) as Hraw
    by (by destruct tree).
  destruct (PairedTilingSetQueue.has_both_layers raw) eqn:Hb.
  - intros Hskip. rewrite (skip_due_on tp raw q tree Hb Hskip).
    destruct (skip_loop_drops tp (PairedTilingSetQueue.tiles_left raw) raw)
      as (q'' & dropped & Hs & _ & Hb' & _); [done|].
    unfold PairedTilingSetQueue.SkipTilesReturnedByTwin in Hskip.
    rewrite Hskip in Hs. injection Hs as <-. by rewrite Hb', Hb.
  - intros [= <-]. by rewrite Hb.
Qed.

(** X11. Under the iterator contract the tiles a pair returns interleave
    the accepted tiles of the active iterator and those of the pending
    iterator, each in the order its iterator yields them: the pair never
    reorders the tiles of one tree. *)
Theorem pair_keeps_each_iterators_order layer_pair tp :
  iterator_contract tp layer_pair →
  ∃ q emitted,
    PairedTilingSetQueue.new layer_pair tp = Some q
    ∧ exhaust q tp = Some emitted
    ∧ merged
        (filter (λ t, accepts tp (PairedTilingSetQueue.has_both_layers q)
                        ACTIVE_TREE t = true)
                (created_queue tp (active layer_pair)))
        (filter (λ t, accepts tp (PairedTilingSetQueue.has_both_layers q)
                        PENDING_TREE t = true)
                (created_queue tp (pending layer_pair)))
        emitted.
Proof.
  intros Hcontract.
  destruct (new_ready layer_pair tp Hcontract) as (q & Hnew & Hready).
  destruct (pop_all_merged tp (PairedTilingSetQueue.tiles_left q) q)
    as (emitted & Hex & Hmerged); [done|done|].
  exists q, emitted. split; [done|]. split; [done|].
  by rewrite <-(new_due_on layer_pair tp q ACTIVE_TREE),
    <-(new_due_on layer_pair tp q PENDING_TREE).
Qed.

Lemma pair_with_shared_tile_contract tp :
  iterator_contract tp pair_with_shared_tile.
Proof.
  split; [|split].
  - apply (bool_decide_unpack _). vm_compute. exact I.
  - apply (bool_decide_unpack _). vm_compute. exact I.
  - intros t Ha Hp. simpl in Ha, Hp.
    apply elem_of_cons in Ha as [->|Ha]; [done|].
    apply elem_of_cons in Ha as [->|Ha]; [|by apply elem_of_nil in Ha].
    apply elem_of_cons in Hp as [Hp|Hp]; [done|].
    apply elem_of_cons in Hp as [Hp|Hp]; [done|by apply elem_of_nil in Hp].
Qed.

Lemma pair_keeps_each_iterators_order_example :
  ∃ q emitted,
    PairedTilingSetQueue.new pair_with_shared_tile
      SMOOTHNESS_TAKES_PRIORITY = Some q
    ∧ exhaust q SMOOTHNESS_TAKES_PRIORITY = Some emitted.
Proof.
  destruct (pair_keeps_each_iterators_order pair_with_shared_tile
              SMOOTHNESS_TAKES_PRIORITY
              (pair_with_shared_tile_contract SMOOTHNESS_TAKES_PRIORITY))
    as (q & emitted & Hnew & Hex & _).
  by exists q, emitted.
Defined.

(** Under NEW_CONTENT_TAKES_PRIORITY the pending iterator is selected as
    long as it has tiles. *)
Lemma NextTileIteratorTree_new_content q tree :
  PairedTilingSetQueue.NextTileIteratorTree q NEW_CONTENT_TAKES_PRIORITY
  = Some tree →
  tree = PENDING_TREE
  ∨ (tree = ACTIVE_TREE
     ∧ PairedTilingSetQueue.no_tiles (PairedTilingSetQueue.pending_queue q)
       = true).
Proof.
  unfold PairedTilingSetQueue.NextTileIteratorTree.
  destruct (PairedTilingSetQueue.IsEmpty q); [done|].
  destruct (PairedTilingSetQueue.no_tiles
              (PairedTilingSetQueue.active_queue q)); [intros [= <-]; auto|].
  destruct (PairedTilingSetQueue.no_tiles
              (PairedTilingSetQueue.pending_queue q)); intros [= <-]; auto.
Qed.

Lemma due_on_no_tiles q tp tree :
  PairedTilingSetQueue.no_tiles (PairedTilingSetQueue.queue_of q tree) = true →
  due_on q tp tree = [].
Proof.
  unfold due_on. by destruct (PairedTilingSetQueue.queue_of q tree) as [[|]|].
Qed.

Lemma pop_all_new_content fuel q :
  PairedTilingSetQueue.tiles_left q ≤ fuel →
  pair_ready NEW_CONTENT_TAKES_PRIORITY q →
  pop_all fuel q NEW_CONTENT_TAKES_PRIORITY
  = Some (due_on q NEW_CONTENT_TAKES_PRIORITY PENDING_TREE
          ++ due_on q NEW_CONTENT_TAKES_PRIORITY ACTIVE_TREE).
Proof.
  revert q. induction fuel as [|fuel IH]; intros q Hfuel Hready; simpl;
    destruct (PairedTilingSetQueue.IsEmpty q) eqn:He.
  - by rewrite !due_on_empty.
  - apply tiles_left_nonempty in He. lia.
  - by rewrite !due_on_empty.
  - destruct (Pop_side NEW_CONTENT_TAKES_PRIORITY q Hready He)
      as (tree & tile & q' & Hn & -> & -> & Hsel & Htwin & Hready' & Hlt).
    simpl. rewrite (IH q') by (done || lia). simpl. f_equal.
    destruct (NextTileIteratorTree_new_content q tree Hn) as [->|[-> Hnone]];
      simpl in Htwin.
    + by rewrite Hsel, Htwin.
    + rewrite Hsel, Htwin.
      by rewrite (due_on_no_tiles q _ PENDING_TREE Hnone).
Qed.

Lemma accepts_new_content_pending (tiles : list Tile) :
  filter (λ t, accepts NEW_CONTENT_TAKES_PRIORITY true PENDING_TREE t = true)
         tiles
  = tiles.
Proof.
  induction tiles as [|t l IH]; [done|].
  rewrite filter_cons_True; [by rewrite IH|].
  unfold accepts. simpl. by destruct (is_shared t).
Qed.

Lemma accepts_new_content_active (tiles : list Tile) :
  filter (λ t, accepts NEW_CONTENT_TAKES_PRIORITY true ACTIVE_TREE t = true)
         tiles
  = not_shared tiles.
Proof.
  unfold not_shared. apply list_filter_iff. intros t.
  unfold accepts. simpl. by destruct (is_shared t).
Qed.

(** X12. Under NEW_CONTENT_TAKES_PRIORITY a pair with both layers returns
    every tile of the pending iterator, in its order, and then the tiles
    of the active iterator that are not shared, in its order (the
    iterators satisfying the iterator contract). *)
Theorem new_content_returns_pending_tiles_first active_layer pending_layer :
  let layer_pair := mkPair (Some active_layer) (Some pending_layer) in
  iterator_contract NEW_CONTENT_TAKES_PRIORITY layer_pair →
  ∃ q,
    PairedTilingSetQueue.new layer_pair NEW_CONTENT_TAKES_PRIORITY = Some q
    ∧ exhaust q NEW_CONTENT_TAKES_PRIORITY
      = Some (created_queue NEW_CONTENT_TAKES_PRIORITY (Some pending_layer)
              ++ not_shared
                   (created_queue NEW_CONTENT_TAKES_PRIORITY
                      (Some active_layer))).
Proof.
  intros layer_pair Hcontract.
  destruct (new_ready layer_pair _ Hcontract) as (q & Hnew & Hready).
  destruct (new_spec layer_pair NEW_CONTENT_TAKES_PRIORITY)
    as (q' & Hnew' & Hb & _).
  rewrite Hnew in Hnew'. injection Hnew' as <-. simpl in Hb.
  exists q. split; [done|]. unfold exhaust.
  rewrite pop_all_new_content by done.
  rewrite !(new_due_on layer_pair _ q) by done. rewrite Hb. simpl.
  by rewrite accepts_new_content_pending, accepts_new_content_active.
Qed.

Lemma new_content_returns_pending_tiles_first_example :
  ∃ q,
    PairedTilingSetQueue.new pair_with_shared_tile
      NEW_CONTENT_TAKES_PRIORITY = Some q
    ∧ exhaust q NEW_CONTENT_TAKES_PRIORITY
      = Some [tile_shared; tile_pending_own; tile_active_own].
Proof.
  apply (new_content_returns_pending_tiles_first
           (layer_of [tile_shared; tile_active_own])
           (layer_of [tile_shared; tile_pending_own])
           (pair_with_shared_tile_contract NEW_CONTENT_TAKES_PRIORITY)).
Defined.

(** ** The queue of pairs: its root *)

(** In a heap an empty root means that every pair is empty. *)
Lemma heap_empty_root tp (v : list PairedTilingSetQueue.t) root :
  is_heap (lower_priority tp) v →
  v !! 0 = Some root →
  PairedTilingSetQueue.IsEmpty root = true →
  ∀ i q, v !! i = Some q → PairedTilingSetQueue.IsEmpty q = true.
Proof.
  intros Hheap Hroot Hempty i.
  induction i as [i IH] using lt_wf_ind. intros q Hq.
  destruct (decide (i = 0)) as [->|Hi]; [congruence|].
  pose proof (parent_child i ltac:(lia)) as Hpar.
  assert (parent i < i) as Hlt by lia.
  destruct (lookup_lt_is_Some_2 v (parent i)) as [y Hy].
  { apply lookup_lt_Some in Hq. lia. }
  pose proof (IH _ Hlt y Hy) as Hyempty.
  pose proof (Hheap (parent i) i Hpar) as Hcmp.
  unfold comp_at in Hcmp. rewrite Hy, Hq in Hcmp.
  destruct (PairedTilingSetQueue.IsEmpty q) eqn:Hqe; [done|].
  unfold lower_priority, RasterOrderComparator in Hcmp.
  by rewrite Hyempty, Hqe in Hcmp.
Qed.

(** The example layers satisfy the iterator contract and yield numeric
    tiles. *)
Lemma example_layers_contract tp : Forall (iterator_contract tp) example_layers.
Proof.
  constructor; [|constructor; [|constructor; [|constructor]]].
  - split; [|split].
    + apply (bool_decide_unpack _). vm_compute. exact I.
    + constructor.
    + by intros t _ ?%elem_of_nil.
  - split; [|split]; [constructor|constructor|].
    by intros t ?%elem_of_nil.
  - apply pair_with_shared_tile_contract.
Qed.

Lemma example_layers_numeric tp : Forall (numeric_layers tp) example_layers.
Proof. repeat constructor. Qed.

(** A queue built from the example layers, with the invariants a [Build]
    on a queue without pairs establishes. *)
Lemma example_queue_built tp :
  ∃ built,
    RasterTilePriorityQueue.Build
      (RasterTilePriorityQueue.new SAME_PRIORITY_FOR_BOTH_TREES)
      example_layers tp = Some built
    ∧ heap_ok built ∧ numeric_pairs built ∧ ready_pairs built.
Proof.
  destruct (Build_numeric_heap
              (RasterTilePriorityQueue.new SAME_PRIORITY_FOR_BOTH_TREES)
              example_layers tp)
    as (built & Hbuilt & Hheap & Hnum);
    [constructor|apply example_layers_numeric|].
  destruct (Build_ready
              (RasterTilePriorityQueue.new SAME_PRIORITY_FOR_BOTH_TREES)
              example_layers tp eq_refl (example_layers_contract tp))
    as (built' & Hbuilt' & Hready).
  rewrite Hbuilt in Hbuilt'. injection Hbuilt' as <-.
  by exists built.
Qed.

(** In a heap the front pair is empty exactly when every pair is. *)
Lemma heap_empty_iff_all_empty self :
  heap_ok self →
  RasterTilePriorityQueue.IsEmpty self = true
  ↔ Forall (λ q, PairedTilingSetQueue.IsEmpty q = true)
           (RasterTilePriorityQueue.paired_queues_ self).
Proof.
  destruct self as [v tp]. unfold heap_ok, RasterTilePriorityQueue.IsEmpty.
  simpl. intros Hheap. split.
  - destruct v as [|root others] eqn:Hv; [constructor|].
    intros Hempty. rewrite <-Hv in *. apply Forall_lookup. intros i q Hq.
    eapply (heap_empty_root tp v root); try done. by rewrite Hv.
  - destruct v as [|root others]; [done|]. by intros [? _]%Forall_cons.
Qed.

(** X13. While the vector of pairs is a heap, the queue's [IsEmpty], which
    looks at the front pair only, holds exactly when every pair is empty:
    no tile is left behind an empty pair. *)
Theorem IsEmpty_iff_every_pair_empty self :
  heap_ok self →
  RasterTilePriorityQueue.IsEmpty self = true
  ↔ Forall (λ q, PairedTilingSetQueue.IsEmpty q = true)
           (RasterTilePriorityQueue.paired_queues_ self).
Proof. apply heap_empty_iff_all_empty. Qed.

Lemma IsEmpty_iff_every_pair_empty_example :
  ∃ built,
    RasterTilePriorityQueue.Build
      (RasterTilePriorityQueue.new SAME_PRIORITY_FOR_BOTH_TREES)
      example_layers SMOOTHNESS_TAKES_PRIORITY = Some built
    ∧ PairedTilingSetQueue.IsEmpty
      <$> RasterTilePriorityQueue.paired_queues_ built = [false; true; false]
    ∧ (RasterTilePriorityQueue.IsEmpty built = true
       ↔ Forall (λ q, PairedTilingSetQueue.IsEmpty q = true)
                (RasterTilePriorityQueue.paired_queues_ built)).
Proof.
  destruct (example_queue_built SMOOTHNESS_TAKES_PRIORITY)
    as (built & Hbuilt & Hheap & _).
  exists built. split; [done|]. split.
  - vm_compute in Hbuilt. by injection Hbuilt as <-.
  - by apply (IsEmpty_iff_every_pair_empty built).
Defined.

(** In a heap of numeric pairs no pair compares higher than the root. *)
Lemma heap_root_highest tp (v : list PairedTilingSetQueue.t) root :
  Forall numeric_pair v →
  is_heap (lower_priority tp) v →
  v !! 0 = Some root →
  ∀ i q, v !! i = Some q → lower_priority tp root q = false.
Proof.
  intros Hnum Hheap Hroot i.
  induction i as [i IH] using lt_wf_ind. intros q Hq.
  destruct (decide (i = 0)) as [->|Hi].
  { replace q with root by congruence.
    by rewrite lower_priority_key, key_lower_irrefl. }
  pose proof (parent_child i ltac:(lia)) as Hpar.
  assert (parent i < i) as Hlt by lia.
  destruct (lookup_lt_is_Some_2 v (parent i)) as [y Hy].
  { apply lookup_lt_Some in Hq. lia. }
  pose proof (Hheap (parent i) i Hpar) as Hcmp.
  unfold comp_at in Hcmp. rewrite Hy, Hq in Hcmp.
  apply (lower_priority_negtrans tp root y q); try done.
  - by eapply Forall_lookup_1.
  - by eapply IH.
Qed.

(** X14. While the vector of pairs is a heap and the distances are
    numbers, the pair whose tile the queue's [Top] returns is one that no
    pair of the queue compares higher than. *)
Theorem Top_is_of_a_highest_pair self root :
  heap_ok self → numeric_pairs self →
  head (RasterTilePriorityQueue.paired_queues_ self) = Some root →
  RasterTilePriorityQueue.Top self
  = (if PairedTilingSetQueue.IsEmpty root then None
     else PairedTilingSetQueue.Top root
            (RasterTilePriorityQueue.tree_priority_ self))
  ∧ ∀ q, q ∈ RasterTilePriorityQueue.paired_queues_ self →
         RasterOrderComparator
           (RasterTilePriorityQueue.tree_priority_ self) root q
         = Some false.
Proof.
  destruct self as [v tp]. unfold heap_ok, numeric_pairs. simpl.
  intros Hheap Hnum Hroot. split.
  - unfold RasterTilePriorityQueue.Top, RasterTilePriorityQueue.IsEmpty.
    simpl. destruct v as [|r others]; [done|]. simpl in *.
    injection Hroot as ->. by destruct (PairedTilingSetQueue.IsEmpty root).
  - intros q [i Hq]%list_elem_of_lookup_1.
    rewrite head_lookup in Hroot.
    pose proof (heap_root_highest tp v root Hnum Hheap Hroot i q Hq) as Hlow.
    rewrite RasterOrderComparator_key.
    by rewrite lower_priority_key in Hlow; rewrite Hlow.
Qed.

Lemma Top_is_of_a_highest_pair_example :
  ∃ built root,
    RasterTilePriorityQueue.Build
      (RasterTilePriorityQueue.new SAME_PRIORITY_FOR_BOTH_TREES)
      example_layers SMOOTHNESS_TAKES_PRIORITY = Some built
    ∧ head (RasterTilePriorityQueue.paired_queues_ built) = Some root
    ∧ ∀ q, q ∈ RasterTilePriorityQueue.paired_queues_ built →
           RasterOrderComparator SMOOTHNESS_TAKES_PRIORITY root q
           = Some false.
Proof.
  destruct (example_queue_built SMOOTHNESS_TAKES_PRIORITY)
    as (built & Hbuilt & Hheap & Hnum & _).
  destruct (head (RasterTilePriorityQueue.paired_queues_ built))
    as [root|] eqn:Hroot.
  - exists built, root. split; [done|]. split; [done|].
    assert (RasterTilePriorityQueue.tree_priority_ built
            = SMOOTHNESS_TAKES_PRIORITY) as Htp.
    { vm_compute in Hbuilt. by injection Hbuilt as <-. }
    rewrite <-Htp.
    by apply (Top_is_of_a_highest_pair built root).
  - exfalso. vm_compute in Hbuilt. injection Hbuilt as <-. discriminate.
Defined.

(** ** The queue of pairs: [Pop] *)

(** X15. A [Pop] of the queue that returns has popped the front pair,
    which was not empty and whose [Top] was the queue's [Top], and has
    changed nothing else: the queue holds the popped front pair and the
    other pairs as they were, in some order, under the same policy. Pairs
    are never removed, also when they become empty. *)
Theorem Pop_pops_the_front_pair self self' :
  RasterTilePriorityQueue.Pop self = Some self' →
  ∃ root others root',
    RasterTilePriorityQueue.paired_queues_ self = root :: others
    ∧ PairedTilingSetQueue.IsEmpty root = false
    ∧ RasterTilePriorityQueue.Top self
      = PairedTilingSetQueue.Top root
          (RasterTilePriorityQueue.tree_priority_ self)
    ∧ PairedTilingSetQueue.Pop root
        (RasterTilePriorityQueue.tree_priority_ self) = Some root'
    ∧ RasterTilePriorityQueue.paired_queues_ self' ≡ₚ root' :: others
    ∧ RasterTilePriorityQueue.tree_priority_ self'
      = RasterTilePriorityQueue.tree_priority_ self.
Proof.
  destruct self as [v tp].
  unfold RasterTilePriorityQueue.Pop, RasterTilePriorityQueue.Top,
    RasterTilePriorityQueue.IsEmpty. simpl.
  destruct v as [|root others]; [done|].
  destruct (PairedTilingSetQueue.IsEmpty root) eqn:He; [done|].
  destruct (pop_heap_shape (lower_priority tp) (root :: others) root others
              eq_refl) as (rest & -> & Hperm).
  rewrite last_snoc. simpl.
  destruct (PairedTilingSetQueue.Pop root tp) as [root'|] eqn:Hpop; [|done].
  simpl. intros [= <-]. exists root, others, root'. simpl.
  repeat split; try done.
  rewrite push_heap_Permutation, length_app. simpl.
  replace (length rest + 1 - 1) with (length rest + 0) by lia.
  rewrite insert_app_r. simpl.
  by rewrite <-Permutation_cons_append, Hperm.
Qed.

Lemma Pop_pops_the_front_pair_example :
  ∃ root others root',
    [active_only [tile_soon_high; tile_soon_low]; pending_only []]
    = root :: others
    ∧ PairedTilingSetQueue.Pop root SAME_PRIORITY_FOR_BOTH_TREES = Some root'.
Proof.
  destruct (Pop_pops_the_front_pair
              (RasterTilePriorityQueue.mk
                 [active_only [tile_soon_high; tile_soon_low];
                  pending_only []]
                 SAME_PRIORITY_FOR_BOTH_TREES)
              (RasterTilePriorityQueue.mk
                 [PairedTilingSetQueue.mk (Some [tile_soon_low]) None false
                    ({[tile_soon_high]} ∪ ∅);
                  pending_only []]
                 SAME_PRIORITY_FOR_BOTH_TREES))
    as (root & others & root' & Hv & _ & _ & Hpop & _).
  - vm_compute. reflexivity.
  - by exists root, others, root'.
Defined.

(** ** Exhausting the queue of pairs *)

Lemma due_empty q tp :
  PairedTilingSetQueue.IsEmpty q = true → due q tp = [].
Proof.
  destruct q as [[[|ta la]|] [[|tb lb]|] both ret]; done.
Qed.

Lemma due_all_empty (pairs : list PairedTilingSetQueue.t) tp :
  Forall (λ q, PairedTilingSetQueue.IsEmpty q = true) pairs →
  pairs ≫= (λ q, due q tp) = [].
Proof.
  induction 1 as [|q l Hq _ IH]; [done|].
  by rewrite bind_cons, due_empty, IH.
Qed.

(** One [Pop] of a queue that is a heap of numeric, ready pairs: it
    returns, removes the tile [Top] returned from the due tiles, and keeps
    the invariants. *)
Lemma queue_Pop_step self :
  heap_ok self → numeric_pairs self → ready_pairs self →
  RasterTilePriorityQueue.IsEmpty self = false →
  ∃ tile self',
    RasterTilePriorityQueue.Top self = Some tile
    ∧ RasterTilePriorityQueue.Pop self = Some self'
    ∧ heap_ok self' ∧ numeric_pairs self' ∧ ready_pairs self'
    ∧ due_in_queue self ≡ₚ tile :: due_in_queue self'
    ∧ tiles_in_queue self' < tiles_in_queue self.
Proof.
  intros Hheap Hnum Hready He.
  destruct (Pop_ready_pairs self Hready He) as (self' & Hpop & Hready').
  destruct (Pop_numeric_heap self self' Hnum Hheap Hpop)
    as (root & others & rest & root' & Hv & _ & _ & Hperm & Hroot & ->
        & Hheap' & Hnum').
  destruct self as [v tp]. simpl in *. subst v.
  unfold ready_pairs in Hready. simpl in Hready.
  apply Forall_cons in Hready as [(Hset & Hnd & Hfresh) _].
  unfold RasterTilePriorityQueue.IsEmpty in He. simpl in He.
  destruct (Pop_spec tp root He Hset Hnd Hfresh)
    as (tile & root'' & Htop & Hroot'' & Hdue & _ & _ & _ & Hlt).
  rewrite Hroot in Hroot''. injection Hroot'' as <-.
  exists tile. eexists. split.
  { unfold RasterTilePriorityQueue.Top, RasterTilePriorityQueue.IsEmpty.
    simpl. by rewrite He. }
  split; [done|]. split; [done|]. split; [done|]. split; [done|].
  unfold due_in_queue, tiles_in_queue.
  cbn [RasterTilePriorityQueue.paired_queues_
       RasterTilePriorityQueue.tree_priority_].
  rewrite !push_heap_Permutation. split.
  - rewrite bind_cons, bind_app, bind_singleton, Hdue, Hperm.
    simpl. constructor. apply Permutation_app_comm.
  - rewrite sum_list_with_app, Hperm. simpl. lia.
Qed.

Lemma pop_all_pairs_spec fuel self :
  tiles_in_queue self ≤ fuel →
  heap_ok self → numeric_pairs self → ready_pairs self →
  ∃ emitted,
    pop_all_pairs fuel self = Some emitted ∧ emitted ≡ₚ due_in_queue self.
Proof.
  revert self.
  induction fuel as [|fuel IH]; intros self Hfuel Hheap Hnum Hready; simpl;
    destruct (RasterTilePriorityQueue.IsEmpty self) eqn:He.
  - exists []. split; [done|].
    apply heap_empty_iff_all_empty in He; [|done].
    unfold due_in_queue. by rewrite due_all_empty.
  - destruct (queue_Pop_step self) as (? & ? & _ & _ & _ & _ & _ & _ & Hlt);
      try done. lia.
  - exists []. split; [done|].
    apply heap_empty_iff_all_empty in He; [|done].
    unfold due_in_queue. by rewrite due_all_empty.
  - destruct (queue_Pop_step self)
      as (tile & self' & -> & -> & Hheap' & Hnum' & Hready' & Hdue & Hlt);
      try done.
    simpl. destruct (IH self') as (rest & -> & Hrest); try done; [lia|].
    exists (tile :: rest). split; [done|]. by rewrite Hdue, Hrest.
Qed.

Lemma new_due layer_pair tp q :
  PairedTilingSetQueue.new layer_pair tp = Some q →
  due q tp = layer_pair_due tp layer_pair.
Proof.
  intros Hnew.
  destruct (new_spec layer_pair tp) as (q' & Hnew' & Hb & Hdue & _).
  rewrite Hnew in Hnew'. injection Hnew' as <-.
  rewrite Hdue. unfold layer_pair_due. by rewrite Hb.
Qed.

Lemma new_due_all tp paired_layers pushed :
  Forall2 (λ it q, PairedTilingSetQueue.new it tp = Some q)
          paired_layers pushed →
  pushed ≫= (λ q, due q tp) = paired_layers ≫= layer_pair_due tp.
Proof.
  induction 1 as [|it q its qs Hq _ IH]; [done|].
  by rewrite !bind_cons, (new_due it tp q Hq), IH.
Qed.

(** X16. After a [Build] on a queue without pairs, from layers whose
    iterators satisfy the iterator contract and yield tiles with numeric
    distances, the loop "while not IsEmpty: Top, Pop" ends without failing
    a check and returns, in some order, exactly the due tiles of every
    layer pair: no accepted tile of any pair is lost or returned twice by
    its pair. *)
Theorem queue_returns_every_due_tile self paired_layers tp :
  RasterTilePriorityQueue.paired_queues_ self = [] →
  Forall (numeric_layers tp) paired_layers →
  Forall (iterator_contract tp) paired_layers →
  ∃ built emitted,
    RasterTilePriorityQueue.Build self paired_layers tp = Some built
    ∧ exhaust_queue built = Some emitted
    ∧ emitted ≡ₚ paired_layers ≫= layer_pair_due tp.
Proof.
  intros Hnone Hnum Hcontract.
  destruct (Build_numeric_heap self paired_layers tp)
    as (built & Hbuilt & Hheap & Hnumeric);
    [unfold numeric_pairs; by rewrite Hnone|done|].
  destruct (Build_ready self paired_layers tp Hnone Hcontract)
    as (built' & Hbuilt' & Hready).
  rewrite Hbuilt in Hbuilt'. injection Hbuilt' as <-.
  destruct (pop_all_pairs_spec (tiles_in_queue built) built)
    as (emitted & Hex & Hperm); try done.
  exists built, emitted. split; [done|]. split; [done|].
  rewrite Hperm.
  unfold RasterTilePriorityQueue.Build in Hbuilt.
  destruct (mapM _ paired_layers) as [pushed|] eqn:Hpushed; [|done].
  simpl in Hbuilt. injection Hbuilt as <-.
  unfold due_in_queue.
  cbn [RasterTilePriorityQueue.paired_queues_
       RasterTilePriorityQueue.tree_priority_].
  rewrite make_heap_Permutation, Hnone, app_nil_l.
  apply mapM_Some in Hpushed. by rewrite (new_due_all _ _ _ Hpushed).
Qed.

Lemma queue_returns_every_due_tile_example :
  ∃ built emitted,
    RasterTilePriorityQueue.Build
      (RasterTilePriorityQueue.new SAME_PRIORITY_FOR_BOTH_TREES)
      example_layers SMOOTHNESS_TAKES_PRIORITY = Some built
    ∧ exhaust_queue built = Some emitted
    ∧ emitted
      ≡ₚ example_layers ≫= layer_pair_due SMOOTHNESS_TAKES_PRIORITY.
Proof.
  apply (queue_returns_every_due_tile
           (RasterTilePriorityQueue.new SAME_PRIORITY_FOR_BOTH_TREES)
           example_layers SMOOTHNESS_TAKES_PRIORITY eq_refl
           (example_layers_numeric SMOOTHNESS_TAKES_PRIORITY)
           (example_layers_contract SMOOTHNESS_TAKES_PRIORITY)).
Defined.

(** A settled pair is empty exactly when it has no due tile. *)
Lemma settled_empty_iff_nothing_due q tp :
  settled q tp →
  PairedTilingSetQueue.IsEmpty q = true ↔ due q tp = [].
Proof.
  intros Hset. split; [apply due_empty|].
  intros Hdue. destruct (PairedTilingSetQueue.IsEmpty q) eqn:He; [done|].
  destruct (NextTileIteratorTree_nonempty q tp He)
    as (tree & tile & rest & Hn & Hq).
  pose proof (due_pop_queue_accepted q tp tree tile rest Hq (Hset _ _ _ Hn Hq))
    as Hperm.
  rewrite Hdue in Hperm. by apply Permutation_nil_cons in Hperm.
Qed.

(** X17. While the vector of pairs is a heap and every pair is settled
    (as the constructor and [Pop] leave them), the queue's [IsEmpty] holds
    exactly when no pair has a due tile left: the skip loop never leaves a
    pair that looks non-empty but has nothing to return. *)
Theorem IsEmpty_iff_nothing_due self :
  heap_ok self →
  Forall (λ q, settled q (RasterTilePriorityQueue.tree_priority_ self))
         (RasterTilePriorityQueue.paired_queues_ self) →
  RasterTilePriorityQueue.IsEmpty self = true ↔ due_in_queue self = [].
Proof.
  intros Hheap Hset.
  rewrite (heap_empty_iff_all_empty self Hheap).
  unfold due_in_queue.
  induction Hset as [|q l Hq _ IH]; [done|].
  rewrite Forall_cons, bind_cons, IH.
  rewrite (settled_empty_iff_nothing_due q _ Hq).
  split.
  - by intros [-> ->].
  - by intros [? ?]%app_eq_nil.
Qed.

Lemma IsEmpty_iff_nothing_due_example :
  ∃ built,
    RasterTilePriorityQueue.Build
      (RasterTilePriorityQueue.new SAME_PRIORITY_FOR_BOTH_TREES)
      example_layers SMOOTHNESS_TAKES_PRIORITY = Some built
    ∧ length (due_in_queue built) = 6
    ∧ (RasterTilePriorityQueue.IsEmpty built = true
       ↔ due_in_queue built = []).
Proof.
  destruct (example_queue_built SMOOTHNESS_TAKES_PRIORITY)
    as (built & Hbuilt & Hheap & _ & Hready).
  exists built. split; [done|]. split.
  - vm_compute in Hbuilt. by injection Hbuilt as <-.
  - apply (IsEmpty_iff_nothing_due built Hheap).
    eapply Forall_impl; [exact Hready|]. by intros q [Hsettled _].
Defined.

(** ** The traced state *)

(** X18. In the state [StateAsValue] traces, the "active_queue"
    dictionary's [has_tile] is whether the active queue is present and not
    empty, and each dictionary's two bins are those of the top tile of its
    own queue, EVENTUALLY when that queue has no tile: the slip in the
    "pending_queue" dictionary is confined to [has_tile]. *)
Theorem StateAsValue_reports_the_tops q :
  let state := PairedTilingSetQueue.StateAsValue q in
  let bins (queue : option TilingSetRasterQueue.t) (tree : WhichTree) :=
    Some (PairedTilingSetQueue.PriorityBin_value
            match Top_ptr queue with
            | Some top => priority_bin (priority top tree)
            | None => EVENTUALLY
            end) in
  traced_boolean state "active_queue" "has_tile"
  = Some (negb (PairedTilingSetQueue.no_tiles
                  (PairedTilingSetQueue.active_queue q)))
  ∧ traced_integer state "active_queue" "active_priority_bin"
    = bins (PairedTilingSetQueue.active_queue q) ACTIVE_TREE
  ∧ traced_integer state "active_queue" "pending_priority_bin"
    = bins (PairedTilingSetQueue.active_queue q) PENDING_TREE
  ∧ traced_integer state "pending_queue" "active_priority_bin"
    = bins (PairedTilingSetQueue.pending_queue q) ACTIVE_TREE
  ∧ traced_integer state "pending_queue" "pending_priority_bin"
    = bins (PairedTilingSetQueue.pending_queue q) PENDING_TREE.
Proof.
  destruct q as [[[|ta la]|] [[|tb lb]|] both ret]; by repeat split.
Qed.
